(** * Connect Loop: a shallow embedding of [connect_loop.py]

    The add-on connects the selected vertices of a mesh into one path,
    starting from the active vertex and hopping to the nearest vertex that
    is still a candidate.  This file embeds [ConnectLoop.connect_loop],
    [ConnectLoop._linked_verts] and [ConnectLoop._chunks] and states the
    properties of the design document over that embedding.

    The embedding runs from the working copy [bm] obtained by
    [bm.from_mesh] to the mesh written back by [bm.to_mesh]; the switch of
    the object mode around it is left out.  A vertex is identified by its
    index in [bm.verts].  Python sets of vertices are [gset nat], Python
    lists are lists, and a Python exception is the [Raise] outcome of
    [result].  Coordinates are integer triples and distances are compared
    through their squares.  The host computes with single-precision
    floats; on integer coordinates of magnitude at most 1024 every
    difference, square and sum of three squares stays below 2^24 and is
    exact there, so what is said about nearness is said for such
    coordinates ([small]) only.

    The services of the host application that the module calls but does
    not define (the order in which a set is iterated, [KDTree.find],
    [select_flush_mode], [bmesh.ops.connect_vert_pair]) are the fields of
    the class [Host]; what the module relies on about them is [HostOk].
    Statements are proved for every host that keeps [HostOk]; two such
    hosts, [first_host] and [last_host], serve as instances. *)

From stdpp Require Import base numbers option list gmap sets.

#[local] Set Warnings "-clear-no-such-hyp,-level-tolerance".

Open Scope Z_scope.
Open Scope nat_scope.

(** ** Exceptions *)

Inductive exn := ValueError | IndexError.

(** The outcome of a piece of Python code: a value, a raised exception, or
    [OutOfFuel] when the fuel given to a [while] loop ran out. *)
Inductive result (A : Type) :=
| Ok (a : A)
| Raise (e : exn)
| OutOfFuel.
Arguments Ok {A} a.
Arguments Raise {A} e.
Arguments OutOfFuel {A}.

Global Instance result_bind : MBind result := fun A B k r =>
  match r with
  | Ok a => k a
  | Raise e => Raise e
  | OutOfFuel => OutOfFuel
  end.

Definition raises {A} (r : result A) : Prop := exists e, r = Raise e.

(** ** The mesh *)

Definition Co : Type := Z * Z * Z.

Record BMVert := { co : Co; select : bool }.

Record BMesh := {
  verts : list BMVert;
  edges : list (nat * nat);
  faces : list (list nat);
  active : option nat          (* bm.select_history.active *)
}.

Definition vert_select (bm : BMesh) (v : nat) : bool :=
  match verts bm !! v with
  | Some x => select x
  | None => false
  end.

Definition vert_co (bm : BMesh) (v : nat) : Co :=
  match verts bm !! v with
  | Some x => co x
  | None => (0, 0, 0)%Z
  end.

Definition incident (v : nat) (e : nat * nat) : bool :=
  (fst e =? v) || (snd e =? v).

(** [bm_vert.link_edges] *)
Definition link_edges (bm : BMesh) (v : nat) : list (nat * nat) :=
  filter (fun e => incident v e = true) (edges bm).

(** [_edge.other_vert(bm_vert)] *)
Definition other_vert (v : nat) (e : nat * nat) : nat :=
  if fst e =? v then snd e else fst e.

(** [linked_vertex.select = False] for every vertex of the set [s] *)
Definition deselect (s : gset nat) (bm : BMesh) : BMesh :=
  {| verts := imap (fun i x => if bool_decide (i ∈ s)
                               then {| co := co x; select := false |}
                               else x) (verts bm);
     edges := edges bm;
     faces := faces bm;
     active := active bm |}.

Definition has_edge (bm : BMesh) (a b : nat) : bool :=
  existsb (fun e => ((fst e =? a) && (snd e =? b)) || ((fst e =? b) && (snd e =? a)))
          (edges bm).

(** [bm.edges.new((a, b))]: refused when the edge is there already. *)
Definition edges_new (bm : BMesh) (a b : nat) : result BMesh :=
  if (a =? b) || has_edge bm a b then Raise ValueError
  else Ok {| verts := verts bm;
             edges := edges bm ++ [(a, b)];
             faces := faces bm;
             active := active bm |}.

(** ** The host application *)

Definition dist2 (p q : Co) : Z :=
  let '(px, py, pz) := p in
  let '(qx, qy, qz) := q in
  ((px - qx) * (px - qx) + (py - qy) * (py - qy) + (pz - qz) * (pz - qz))%Z.

Class Host := {
  (** the order in which [for x in s] visits a set of vertices *)
  set_iter : gset nat -> list nat;
  (** [kd.find(co, filter)] on the tree holding the given (co, index)
      entries; [None] is the answer [(None, None, None)] *)
  kd_find : list (Co * nat) -> Co -> (nat -> bool) -> option nat;
  (** [bm.select_flush_mode()] *)
  select_flush_mode : BMesh -> BMesh;
  (** [bmesh.ops.connect_vert_pair(bm, verts=(a, b))]: the mesh afterwards
      and the value of ['edges'] in the returned dictionary *)
  connect_vert_pair : BMesh -> nat -> nat -> BMesh * list (nat * nat)
}.

(** Coordinates on which the host's single-precision arithmetic is exact:
    integers of magnitude at most 1024. *)
Definition small (c : Co) : Prop :=
  let '(x, y, z) := c in
  (Z.abs x <= 1024 /\ Z.abs y <= 1024 /\ Z.abs z <= 1024)%Z.

(** What the module relies on.  A set is visited once per element.
    [kd.find] answers with an entry of the tree that passes the filter.
    When the query and all the entries are [small], that entry is as near
    as any entry that passes the filter, and the answer is nothing only
    when no entry passes; off such coordinates the rounding and the
    overflow of the host's floats decide, and nothing is assumed.  Which
    of several equally near entries is picked is left open.
    Flushing the selection changes no vertex, edge or face (in vertex
    select mode it recomputes the flags of edges and faces, which the
    model does not carry); what it does to the selection history is left
    open, except that an empty history stays empty.  On a mesh without
    faces [connect_vert_pair] has no face to split and makes no edge. *)
Record HostOk (h : Host) : Prop := {
  set_iter_elem : forall s x, x ∈ set_iter s <-> x ∈ s;
  set_iter_nodup : forall s, NoDup (set_iter s);
  kd_find_some : forall es q flt i,
      kd_find es q flt = Some i ->
      flt i = true /\
      exists c, (c, i) ∈ es /\
        (small q -> Forall (fun e => small (fst e)) es ->
         forall c' j, (c', j) ∈ es -> flt j = true -> (dist2 q c <= dist2 q c')%Z);
  kd_find_none : forall es q flt,
      kd_find es q flt = None ->
      small q -> Forall (fun e => small (fst e)) es ->
      forall c j, (c, j) ∈ es -> flt j = false;
  flush_verts : forall bm, verts (select_flush_mode bm) = verts bm;
  flush_edges : forall bm, edges (select_flush_mode bm) = edges bm;
  flush_faces : forall bm, faces (select_flush_mode bm) = faces bm;
  flush_no_active : forall bm, active bm = None -> active (select_flush_mode bm) = None;
  connect_no_faces : forall bm a b, faces bm = [] -> connect_vert_pair bm a b = (bm, [])
}.

(** ** [ConnectLoop._linked_verts] *)

Definition _linked_verts_recursive_deep : nat := 10.

Section Code.
Context {h : Host}.

(** [verts] is one set object shared by all the recursive calls: each call
    updates it in place and returns it, so it is threaded through. *)
Fixpoint _linked_verts (bm : BMesh) (bm_vert : nat) (deep : nat) (verts : gset nat)
  : gset nat :=
  match deep with
  | 0 => verts
  | S deep' =>
      let selected_linked_verts : gset nat :=
        list_to_set
          (filter (fun w => vert_select bm w = true /\ w ∉ verts)
                  (other_vert bm_vert <$> link_edges bm bm_vert)) in
      let verts := verts ∪ selected_linked_verts in
      foldl (fun verts vert => verts ∪ _linked_verts bm vert deep' verts)
            verts (set_iter selected_linked_verts)
  end.

(** the call with [verts=None] *)
Definition linked_verts (bm : BMesh) (bm_vert : nat) (deep : nat) : gset nat :=
  _linked_verts bm bm_vert deep {[bm_vert]}.

(** ** Boundary pruning (the [if boundary_priority:] block) *)

(** One turn of the [for vertex in (...)] loop.  The generator tests
    [_vertex.select] when the vertex is reached, so the test sees the
    deselections of the earlier turns. *)
Definition prune_step (bm : BMesh) (vertex : nat) : BMesh :=
  if vert_select bm vertex && (length (link_edges bm vertex) =? 1)
  then deselect (linked_verts bm vertex _linked_verts_recursive_deep ∖ {[vertex]}) bm
  else bm.

Definition boundary_prune (bm : BMesh) : BMesh :=
  select_flush_mode (foldl prune_step bm (seq 0 (length (verts bm)))).

(** ** The loop builder *)

(** [[vertex for vertex in bm.verts if vertex.select]] *)
Definition selected_list (bm : BMesh) : list nat :=
  filter (fun v => vert_select bm v = true) (seq 0 (length (verts bm))).

(** the entries inserted in the KDTree *)
Definition kd_entries (bm : BMesh) (selected_vertices : list nat) : list (Co * nat) :=
  (fun v => (vert_co bm v, v)) <$> selected_vertices.

(** [lst.remove(x)] *)
Fixpoint list_remove (x : nat) (l : list nat) : result (list nat) :=
  match l with
  | [] => Raise ValueError
  | y :: l' => if x =? y then Ok l' else l'' ← list_remove x l'; Ok (y :: l'')
  end.

(** [bm.verts[index]] *)
Definition verts_getitem (bm : BMesh) (index : nat) : result nat :=
  if index <? length (verts bm) then Ok index else Raise IndexError.

(** the truth value of [index] in [bm.verts[index] if index else None] *)
Definition truthy (index : option nat) : bool :=
  match index with
  | Some (S _) => true
  | _ => false
  end.

(** the closure [flt], over the current [loop] and [selected_vertices] *)
Definition flt (loop selected_vertices : list nat) (_index : nat) : bool :=
  negb (bool_decide (_index ∈ loop)) && bool_decide (_index ∈ selected_vertices).

Record LBState := {
  loop : list nat;
  selected_vertices : list nat;
  current_vertex : option nat;
  _i : nat
}.

(** What one turn of the [while] loop saw and did (a log kept beside the
    program state, for the statements below). *)
Record Iteration := {
  it_loop : list nat;             (* [loop] when [kd.find] was called *)
  it_candidates : list nat;       (* [selected_vertices] when [kd.find] was called *)
  it_found : option nat;          (* the index returned by [kd.find] *)
  it_next : option nat            (* [current_vertex] after the turn *)
}.

(** The body of [while current_vertex:] up to and including [_i += 1]. *)
Definition loop_body (bm : BMesh) (kd : list (Co * nat)) (c : nat) (st : LBState)
  : result (LBState * Iteration) :=
  let linked_verts := linked_verts bm c _linked_verts_recursive_deep in
  let sel := set_iter (list_to_set (selected_vertices st) ∖ linked_verts) in
  let index := kd_find kd (vert_co bm c) (flt (loop st) sel) in
  let it next := {| it_loop := loop st; it_candidates := sel;
                    it_found := index; it_next := next |} in
  match index with
  | Some idx =>
      if truthy index then
        v ← verts_getitem bm idx;
        sel' ← list_remove v sel;
        Ok ({| loop := loop st ++ [v]; selected_vertices := sel';
               current_vertex := Some v; _i := S (_i st) |}, it (Some v))
      else
        Ok ({| loop := loop st; selected_vertices := sel;
               current_vertex := None; _i := S (_i st) |}, it None)
  | None =>
      Ok ({| loop := loop st; selected_vertices := sel;
             current_vertex := None; _i := S (_i st) |}, it None)
  end.

(** How the [while] loop was left: its condition failed, or the alarm
    [break] was taken. *)
Inductive Exit := ExitDone | ExitOverflow.

Fixpoint while_loop (fuel : nat) (bm : BMesh) (kd : list (Co * nat)) (_l : nat)
  (st : LBState) : result (LBState * Exit * list Iteration) :=
  match current_vertex st with
  | None => Ok (st, ExitDone, [])
  | Some c =>
      match fuel with
      | 0 => OutOfFuel
      | S fuel' =>
          '(st', it) ← loop_body bm kd c st;
          if _l <? _i st' then Ok (st', ExitOverflow, [it])
          else
            '(st'', ex, its) ← while_loop fuel' bm kd _l st';
            Ok (st'', ex, it :: its)
      end
  end.

(** From [loop = [bm.select_history.active, ]] to the end of the [while]
    loop, on the mesh as it is after pruning. *)
Definition loop_builder (bm : BMesh) (a : nat)
  : result (LBState * Exit * list Iteration) :=
  let kd := kd_entries bm (selected_list bm) in
  sel ← list_remove a (selected_list bm);
  let _l := length sel in
  while_loop (S _l) bm kd _l
    {| loop := [a]; selected_vertices := sel; current_vertex := Some a; _i := 0 |}.

(** ** [ConnectLoop._chunks] and the emission of edges *)

Fixpoint range_step (fuel i stop step : nat) : list nat :=
  match fuel with
  | 0 => []
  | S fuel' => if i <? stop then i :: range_step fuel' (i + step) stop step else []
  end.

(** [range(0, len(lst), n - offset)] raises for a zero step and is empty for
    a negative one; [lst[i:i + n]] is [take n (drop i lst)]. *)
Definition _chunks {A} (lst : list A) (n offset : nat) : result (list (list A)) :=
  if n =? offset then Raise ValueError
  else if n <? offset then Ok []
  else Ok ((fun i => take n (drop i lst)) <$>
             range_step (length lst) 0 (length lst) (n - offset)).

(** the generator of the [for chunk in (...)] loop *)
Definition edge_chunks {A} (lst : list A) : result (list (list A)) :=
  cs ← _chunks lst 2 1;
  Ok (filter (fun _chunk => length _chunk = 2) cs).

(** the body of the [for chunk in (...)] loop *)
Definition connect_chunk (bm : BMesh) (chunk : list nat) : result BMesh :=
  match chunk with
  | [a; b] =>
      let '(bm', created) := connect_vert_pair bm a b in
      match created with
      | [] => edges_new bm' a b
      | _ => Ok bm'
      end
  | _ => Raise ValueError
  end.

Fixpoint emit_edges (bm : BMesh) (chunks : list (list nat)) : result BMesh :=
  match chunks with
  | [] => Ok bm
  | chunk :: rest => bm' ← connect_chunk bm chunk; emit_edges bm' rest
  end.

(** ** [ConnectLoop.connect_loop], from the working copy [bm] to the mesh
    written back by [bm.to_mesh] *)
Definition connect_loop (bm : BMesh) (boundary_priority : bool) : result BMesh :=
  let bm := if boundary_priority then boundary_prune bm else bm in
  match active bm with
  | Some a =>
      '(st, _, _) ← loop_builder bm a;
      chunks ← edge_chunks (loop st);
      emit_edges bm chunks
  | None => Ok bm
  end.

End Code.

(** ** Two hosts *)

Definition closer (q : Co) (e best : Co * nat) : bool :=
  (dist2 q (fst e) <? dist2 q (fst best))%Z.

(** A nearest entry passing the filter; among equally near entries the
    one inserted first. *)
Fixpoint nearest (es : list (Co * nat)) (q : Co) (flt : nat -> bool)
  (best : option (Co * nat)) : option (Co * nat) :=
  match es with
  | [] => best
  | e :: es' =>
      let best' :=
        if flt (snd e) then
          match best with
          | None => Some e
          | Some b => if closer q e b then Some e else best
          end
        else best in
      nearest es' q flt best'
  end.

Definition direct_connect (bm : BMesh) (a b : nat) : BMesh * list (nat * nat) :=
  if existsb (fun f => bool_decide (a ∈ f) && bool_decide (b ∈ f)) (faces bm)
  then ({| verts := verts bm; edges := edges bm ++ [(a, b)];
           faces := faces bm; active := active bm |}, [(a, b)])
  else (bm, []).

(** Flushing drops a deselected vertex from the selection history. *)
Definition validate_history (bm : BMesh) : BMesh :=
  match active bm with
  | Some a =>
      if vert_select bm a then bm
      else {| verts := verts bm; edges := edges bm; faces := faces bm; active := None |}
  | None => bm
  end.

(** Sets are visited in the order of [elements], ties go to the entry
    inserted first, and flushing validates the selection history. *)
Definition first_host : Host := {|
  set_iter := elements;
  kd_find es q flt := snd <$> nearest es q flt None;
  select_flush_mode := validate_history;
  connect_vert_pair := direct_connect
|}.

(** As [first_host], but sets are visited in the opposite order. *)
Definition last_host : Host := {|
  set_iter s := reverse (elements s);
  kd_find es q flt := snd <$> nearest es q flt None;
  select_flush_mode := validate_history;
  connect_vert_pair := direct_connect
|}.

(** ** Meshes used as examples *)

Definition vtx (x y z : Z) (s : bool) : BMVert := {| co := (x, y, z); select := s |}.

(** the four corners of the unit square, all selected, no edge, vertex 0 active *)
Definition square : BMesh := {|
  verts := [vtx 0 0 0 true; vtx 1 0 0 true; vtx 1 1 0 true; vtx 0 1 0 true];
  edges := [];
  faces := [];
  active := Some 0
|}.

(** Two isolated selected vertices; the active one has index 1, so the
    only other candidate has index 0. *)
Definition index_zero_pair : BMesh := {|
  verts := [vtx 1 0 0 true; vtx 0 0 0 true];
  edges := [];
  faces := [];
  active := Some 1
|}.

(** A path 0 - 1 - 2 whose vertices 0 and 1 are selected; vertex 0 has one
    edge, and the active vertex is [a]. *)
Definition stub (a : option nat) : BMesh := {|
  verts := [vtx 0 0 0 true; vtx 1 0 0 true; vtx 2 0 0 false];
  edges := [(0, 1); (1, 2)];
  faces := [];
  active := a
|}.

(** A path 0 - 1 - ... - 12: vertices 0 to 11 are selected, vertex 12 is not. *)
Definition chain : BMesh := {|
  verts := ((fun i => vtx (Z.of_nat i) 0 0 true) <$> seq 0 12) ++ [vtx 12 0 0 false];
  edges := (fun i => (i, S i)) <$> seq 0 12;
  faces := [];
  active := None
|}.

(** Seven selected vertices: a cycle 0 - 1 - 3 - 4 - 2 - 0 with vertex 5
    hanging from 4 and vertex 6 hanging from 3. *)
Definition lantern : BMesh := {|
  verts := (fun i => vtx (Z.of_nat i) 0 0 true) <$> seq 0 7;
  edges := [(0, 1); (0, 2); (1, 3); (3, 4); (4, 2); (4, 5); (3, 6)];
  faces := [];
  active := None
|}.

(** One selected vertex, active, with an edge to an unselected one. *)
Definition lone : BMesh := {|
  verts := [vtx 0 0 0 true; vtx 1 0 0 false];
  edges := [(0, 1)];
  faces := [];
  active := Some 0
|}.

(** ** Definitions used by the statements *)

(** the windows [lst[i:i + 2]] for [i] in [range(0, len(lst), 1)] *)
Definition windows {A} (lst : list A) : list (list A) :=
  (fun i => take 2 (drop i lst)) <$> seq 0 (length lst).

(** The consecutive pairs [(loop[i], loop[i+1])] of the design document. *)
Definition adjacent_pairs {A} (lst : list A) : list (list A) :=
  zip_with (fun a b => [a; b]) lst (drop 1 lst).

(** [u] and [w] are the two ends of an edge. *)
Definition adjacent (bm : BMesh) (u w : nat) : Prop :=
  (u, w) ∈ edges bm \/ (w, u) ∈ edges bm.

(** A path of [n] edges from [u] whose every further point is selected. *)
Inductive sel_path (bm : BMesh) (u : nat) : nat -> nat -> Prop :=
| sel_path_nil : sel_path bm u u 0
| sel_path_step w x n :
    sel_path bm u w n -> adjacent bm w x -> vert_select bm x = true ->
    sel_path bm u x (S n).

(** [w] is in the connected cluster of selected points of [u]. *)
Inductive sel_linked (bm : BMesh) (u : nat) : nat -> Prop :=
| sel_linked_refl : sel_linked bm u u
| sel_linked_step w x :
    sel_linked bm u w -> adjacent bm w x -> vert_select bm x = true ->
    sel_linked bm u x.

(** a boundary point: exactly one incident edge *)
Definition is_boundary (bm : BMesh) (v : nat) : Prop :=
  length (link_edges bm v) = 1.



(** the square with the given edges added *)
Definition square_with (es : list (nat * nat)) : BMesh :=
  {| verts := verts square; edges := es; faces := []; active := Some 0 |}.

(** the state and the log at the end of the run on the square when sets
    are visited in the order of [elements] and ties go to the first entry *)
Definition square_final : LBState :=
  {| loop := [0; 1; 2; 3]; selected_vertices := []; current_vertex := None; _i := 4 |}.

Definition square_log : list Iteration :=
  [ {| it_loop := [0]; it_candidates := [2; 3; 1]; it_found := Some 1; it_next := Some 1 |};
    {| it_loop := [0; 1]; it_candidates := [2; 3]; it_found := Some 2; it_next := Some 2 |};
    {| it_loop := [0; 1; 2]; it_candidates := [3]; it_found := Some 3; it_next := Some 3 |};
    {| it_loop := [0; 1; 2; 3]; it_candidates := []; it_found := None; it_next := None |} ].

(** [o] is a nearest entry of [pool] passing the filter, if there is one. *)
Definition best_of (q : Co) (flt : nat -> bool) (pool : list (Co * nat))
  (o : option (Co * nat)) : Prop :=
  match o with
  | Some e =>
      e ∈ pool /\ flt (snd e) = true /\
      forall e', e' ∈ pool -> flt (snd e') = true -> (dist2 q (fst e) <= dist2 q (fst e'))%Z
  | None => forall e', e' ∈ pool -> flt (snd e') = false
  end.

(** every selected neighbour of [u] is in [R] *)
Definition sel_closed (bm : BMesh) (R : gset nat) (u : nat) : Prop :=
  forall w, adjacent bm u w -> vert_select bm w = true -> w ∈ R.

(** no two consecutive points of [lp] are the ends of an edge of [bm] *)
Definition consec_free (bm : BMesh) (lp : list nat) : Prop :=
  forall i x y, lp !! i = Some x -> lp !! S i = Some y -> ~ adjacent bm x y.

(** the consecutive pairs of [lp], as edges *)
Definition pairs_of (lp : list nat) : list (nat * nat) := zip lp (drop 1 lp).

(** every selected vertex has [small] coordinates *)
Definition small_selection (bm : BMesh) : Prop :=
  Forall (fun v => small (vert_co bm v)) (selected_list bm).

(** The turn [it] of the [while] loop, when it appends a vertex [v]: the
    tip [t] it starts from is the last point of the loop; [v] is a
    candidate outside the vertices linked to [t], and no edge joins [t] and
    [v]; and, the selected vertices having [small] coordinates, no
    candidate outside the loop is nearer to [t] than [v]. *)
Definition hop_ok {h : Host} (bm : BMesh) (it : Iteration) : Prop :=
  forall v, it_next it = Some v ->
    exists t,
      last (it_loop it) = Some t /\
      v ∈ it_candidates it /\
      it_candidates it ⊆ selected_list bm /\
      v ∉ linked_verts bm t _linked_verts_recursive_deep /\
      ~ adjacent bm t v /\
      (small_selection bm ->
       forall j, j ∈ it_candidates it -> j ∉ it_loop it ->
         (dist2 (vert_co bm t) (vert_co bm v) <= dist2 (vert_co bm t) (vert_co bm j))%Z).

(** A later point of [lp] is never among the vertices linked to an earlier
    one, and no edge of [bm] joins two points of [lp]. *)
Definition loop_apart {h : Host} (bm : BMesh) (lp : list nat) : Prop :=
  forall i j x y, i < j -> lp !! i = Some x -> lp !! j = Some y ->
    y ∉ linked_verts bm x _linked_verts_recursive_deep /\ ~ adjacent bm x y.

(** Selected vertices 0 and 1 joined by an edge, and a selected vertex 2
    away from them; vertex 0 is active. *)
Definition fence : BMesh := {|
  verts := [vtx 0 0 0 true; vtx 1 0 0 true; vtx 3 0 0 true];
  edges := [(0, 1)];
  faces := [];
  active := Some 0
|}.

(** the candidates hold no vertex linked to a point of the loop other than
    the tip *)
Definition candidates_clear {h : Host} (bm : BMesh) (st : LBState) : Prop :=
  forall x y, x ∈ loop st -> current_vertex st <> Some x ->
    y ∈ selected_vertices st ->
    y ∉ linked_verts bm x _linked_verts_recursive_deep.

(** the state and the log at the end of the run on the fence *)
Definition fence_final : LBState :=
  {| loop := [0; 2]; selected_vertices := []; current_vertex := None; _i := 2 |}.

Definition fence_log : list Iteration :=
  [ {| it_loop := [0]; it_candidates := [2]; it_found := Some 2; it_next := Some 2 |};
    {| it_loop := [0; 2]; it_candidates := []; it_found := None; it_next := None |} ].

(** [bm] with the edges [es] added after its own *)
Definition add_edges (bm : BMesh) (es : list (nat * nat)) : BMesh :=
  {| verts := verts bm; edges := edges bm ++ es; faces := faces bm; active := active bm |}.

(** [v] is a point of [lp] or is linked to one *)
Definition covered {h : Host} (bm : BMesh) (lp : list nat) (v : nat) : Prop :=
  v ∈ lp \/ exists x, x ∈ lp /\ v ∈ linked_verts bm x _linked_verts_recursive_deep.

(** every selected vertex is covered by the loop or still a candidate *)
Definition cover_inv {h : Host} (bm : BMesh) (st : LBState) : Prop :=
  forall v, v ∈ selected_list bm ->
    covered bm (loop st) v \/ v ∈ selected_vertices st.


(** ** The two hosts keep the contract *)

Section Nearest.
Variables (q : Co) (flt : nat -> bool).

Lemma nearest_best es : forall pool best,
  best_of q flt pool best -> best_of q flt (pool ++ es) (nearest es q flt best).
Proof.
  induction es as [|e es IH]; intros pool best Hb; simpl.
  - by rewrite app_nil_r.
  - replace (pool ++ e :: es) with ((pool ++ [e]) ++ es) by by rewrite <- app_assoc.
    apply IH. destruct (flt (snd e)) eqn:He.
    + destruct best as [b|]; simpl in *.
      * destruct Hb as (Hin & Hf & Hmin).
        unfold closer.
        destruct (Z.ltb_spec (dist2 q (fst e)) (dist2 q (fst b))); simpl.
        -- split_and!; [set_solver | done |].
           intros e' [He'|He']%elem_of_app Hf'.
           ++ specialize (Hmin e' He' Hf'). lia.
           ++ apply list_elem_of_singleton in He'. subst. lia.
        -- split_and!; [set_solver | done |].
           intros e' [He'|He']%elem_of_app Hf'; [by apply Hmin|].
           apply list_elem_of_singleton in He'. by subst.
      * split_and!; [set_solver | done |].
        intros e' [He'|He']%elem_of_app Hf'.
        -- rewrite (Hb e' He') in Hf'. done.
        -- apply list_elem_of_singleton in He'. subst. lia.
    + destruct best as [b|]; simpl in *.
      * destruct Hb as (Hin & Hf & Hmin). split_and!; [set_solver | done |].
        intros e' [He'|He']%elem_of_app Hf'; [by apply Hmin|].
        apply list_elem_of_singleton in He'. subst. congruence.
      * intros e' [He'|He']%elem_of_app; [by apply Hb|].
        apply list_elem_of_singleton in He'. by subst.
Qed.

Lemma nearest_start es : best_of q flt es (nearest es q flt None).
Proof. apply (nearest_best es [] None). intros e' He'. by apply elem_of_nil in He'. Qed.

End Nearest.

Lemma nearest_find_some es q flt i :
  snd <$> nearest es q flt None = Some i ->
  flt i = true /\
  exists c, (c, i) ∈ es /\
    forall c' j, (c', j) ∈ es -> flt j = true -> (dist2 q c <= dist2 q c')%Z.
Proof.
  intros H. pose proof (nearest_start q flt es) as Hb.
  destruct (nearest es q flt None) as [[c i']|]; simplify_eq/=.
  destruct Hb as (Hin & Hf & Hmin). split; [done|]. exists c. split; [done|].
  intros c' j Hj Hfj. apply (Hmin (c', j) Hj Hfj).
Qed.

Lemma nearest_find_none es q flt :
  snd <$> nearest es q flt None = None ->
  forall c j, (c, j) ∈ es -> flt j = false.
Proof.
  intros H c j Hj. pose proof (nearest_start q flt es) as Hb.
  destruct (nearest es q flt None) as [e|]; simplify_eq/=.
  apply (Hb (c, j) Hj).
Qed.

Lemma direct_connect_no_faces bm a b :
  faces bm = [] -> direct_connect bm a b = (bm, []).
Proof. intros H. unfold direct_connect. by rewrite H. Qed.

Lemma first_host_ok : HostOk first_host.
Proof.
  constructor; simpl.
  - intros s x. apply elem_of_elements.
  - intros s. apply NoDup_elements.
  - intros es q flt i H. apply nearest_find_some in H as (Hf & c & Hin & Hmin).
    split; [done|]. exists c. split; [done|]. intros _ _. exact Hmin.
  - intros es q flt H _ _. by apply (nearest_find_none es q).
  - intros bm. unfold validate_history. by repeat case_match.
  - intros bm. unfold validate_history. by repeat case_match.
  - intros bm. unfold validate_history. by repeat case_match.
  - intros bm H. unfold validate_history. by rewrite H.
  - apply direct_connect_no_faces.
Qed.

Lemma last_host_ok : HostOk last_host.
Proof.
  constructor; simpl.
  - intros s x. rewrite elem_of_reverse. apply elem_of_elements.
  - intros s. rewrite reverse_Permutation. apply NoDup_elements.
  - intros es q flt i H. apply nearest_find_some in H as (Hf & c & Hin & Hmin).
    split; [done|]. exists c. split; [done|]. intros _ _. exact Hmin.
  - intros es q flt H _ _. by apply (nearest_find_none es q).
  - intros bm. unfold validate_history. by repeat case_match.
  - intros bm. unfold validate_history. by repeat case_match.
  - intros bm. unfold validate_history. by repeat case_match.
  - intros bm H. unfold validate_history. by rewrite H.
  - apply direct_connect_no_faces.
Qed.

(** ** EdgeChunker *)

Lemma range_step_one fuel : forall i stop,
  stop - i <= fuel -> range_step fuel i stop 1 = seq i (stop - i).
Proof.
  induction fuel as [|fuel IH]; intros i stop Hf; simpl.
  - by replace (stop - i) with 0 by lia.
  - destruct (Nat.ltb_spec i stop) as [Hlt|Hge].
    + replace (stop - i) with (S (stop - (i + 1))) by lia. simpl.
      rewrite IH by lia. by replace (i + 1) with (S i) by lia.
    + by replace (stop - i) with 0 by lia.
Qed.

Lemma windows_cons {A} (a : A) (l : list A) :
  windows (a :: l) = take 2 (a :: l) :: windows l.
Proof.
  unfold windows. simpl. f_equal.
  rewrite <- fmap_S_seq, <- list_fmap_compose. done.
Qed.

Lemma filter_windows {A} (lst : list A) :
  filter (fun _chunk => length _chunk = 2) (windows lst) = adjacent_pairs lst.
Proof.
  induction lst as [|a l IH]; [done|].
  rewrite windows_cons. destruct l as [|b l'].
  - done.
  - rewrite filter_cons_True by done. rewrite IH. done.
Qed.

Lemma adjacent_pairs_lookup {A} (lst : list A) : forall i,
  adjacent_pairs lst !! i =
    match lst !! i, lst !! S i with
    | Some x, Some y => Some [x; y]
    | _, _ => None
    end.
Proof.
  induction lst as [|a l IH]; intros i; [done|].
  destruct l as [|b l'].
  - destruct i as [|i]; [done|]. simpl. by destruct i.
  - destruct i as [|i]; [done|]. apply (IH i).
Qed.

Lemma adjacent_pairs_length {A} (lst : list A) :
  length (adjacent_pairs lst) = length lst - 1.
Proof.
  unfold adjacent_pairs. rewrite length_zip_with, length_drop. lia.
Qed.

(** C9: on a loop of length n the chunking stage (window 2, offset 1, then
    the filter on windows of size 2) returns exactly max(n-1, 0) pairs, and
    its i-th pair is [loop[i]; loop[i+1]]; the last, underfull window is
    dropped. *)
Theorem C9_edge_chunks_adjacent_pairs {A} (lst : list A) :
  edge_chunks lst = Ok (adjacent_pairs lst) /\
  (Z.of_nat (length (adjacent_pairs lst)) = Z.max (Z.of_nat (length lst) - 1) 0)%Z /\
  forall i, adjacent_pairs lst !! i =
    match lst !! i, lst !! S i with
    | Some x, Some y => Some [x; y]
    | _, _ => None
    end.
Proof.
  split_and!.
  - unfold edge_chunks, _chunks. simpl.
    rewrite range_step_one by lia. rewrite Nat.sub_0_r.
    fold (windows lst). by rewrite filter_windows.
  - rewrite adjacent_pairs_length. lia.
  - apply adjacent_pairs_lookup.
Qed.

(** ** The loop builder: termination *)

Section LoopBuilder.
Context {h : Host}.

Lemma loop_body_counter bm kd c st st' it :
  loop_body bm kd c st = Ok (st', it) -> _i st' = S (_i st).
Proof.
  unfold loop_body. intros H.
  destruct (kd_find _ _ _) as [idx|]; [|by simplify_eq/=].
  destruct (truthy (Some idx)); [|by simplify_eq/=].
  destruct (verts_getitem bm idx) as [v| |]; simpl in H; try done.
  destruct (list_remove v _) as [sel'| |]; simpl in H; try done.
  by simplify_eq/=.
Qed.

(** With [_l + 1 - _i] turns of fuel the loop is left, and the turns it
    makes bring the counter to at most [_l + 1]. *)
Lemma while_loop_bound fuel : forall bm kd _l st,
  _i st <= _l -> _l + 1 - _i st <= fuel ->
  match while_loop fuel bm kd _l st with
  | Ok (st', _, its) => _i st' = _i st + length its /\ _i st' <= _l + 1
  | Raise _ => True
  | OutOfFuel => False
  end.
Proof.
  induction fuel as [|fuel IH]; intros bm kd _l st Hi Hf; simpl.
  - destruct (current_vertex st); [lia|]. simpl. lia.
  - destruct (current_vertex st) as [c|]; [|simpl; lia].
    destruct (loop_body bm kd c st) as [[st' it]| |] eqn:Hb; simpl; [|done|].
    + apply loop_body_counter in Hb.
      destruct (Nat.ltb_spec _l (_i st')) as [Hlt|Hge]; simpl; [lia|].
      specialize (IH bm kd _l st'). 
      destruct (while_loop fuel bm kd _l st') as [[[st'' ex] its]| |];
        simpl; [|done|apply IH; lia].
      destruct IH as [IH1 IH2]; [lia|lia|]. lia.
    + unfold loop_body in Hb.
      destruct (kd_find _ _ _) as [idx|]; [|done].
      destruct (truthy (Some idx)); [|done].
      destruct (verts_getitem bm idx) as [v| |] eqn:Hv; simpl in Hb;
        [|done|by unfold verts_getitem in Hv; case_match].
      destruct (list_remove v _) as [sel'| |] eqn:Hr; simpl in Hb; try done.
      clear -Hr. exfalso. revert Hr.
      generalize (set_iter (list_to_set (selected_vertices st)
                   ∖ linked_verts bm c _linked_verts_recursive_deep)).
      intros l. induction l as [|y l IHl]; simpl; [done|].
      destruct (v =? y); [done|].
      destruct (list_remove v l); simpl; [done|done|]. by apply IHl.
Qed.

Lemma while_loop_fuel_mono fuel : forall fuel' bm kd _l st,
  fuel <= fuel' ->
  while_loop fuel bm kd _l st <> OutOfFuel ->
  while_loop fuel' bm kd _l st = while_loop fuel bm kd _l st.
Proof.
  induction fuel as [|fuel IH]; intros fuel' bm kd _l st Hle Hne.
  - simpl in *. destruct (current_vertex st) eqn:E; [congruence|].
    destruct fuel'; simpl; by rewrite E.
  - destruct fuel' as [|fuel']; [lia|]. simpl in *.
    destruct (current_vertex st) as [c|]; [|done].
    destruct (loop_body bm kd c st) as [[st' it]| |]; simpl in *; [|done|done].
    destruct (_l <? _i st'); [done|].
    rewrite (IH fuel') ; [done|lia|].
    intros Ht. rewrite Ht in Hne. by apply Hne.
Qed.

(** C4: the [while] loop of the loop builder is left after at most
    [_l + 1] turns, [_l] being the number of candidates when it is entered:
    [_l + 1] turns of fuel are never used up, and the log of a run that
    returns has at most [_l + 1] entries. *)
Theorem C4_while_loop_terminates bm kd a sel :
  let _l := length sel in
  match while_loop (S _l) bm kd _l
          {| loop := [a]; selected_vertices := sel; current_vertex := Some a; _i := 0 |} with
  | Ok (st, _, its) => length its <= _l + 1 /\ _i st = length its
  | Raise _ => True
  | OutOfFuel => False
  end.
Proof.
  intros _l.
  pose proof (while_loop_bound (S _l) bm kd _l
    {| loop := [a]; selected_vertices := sel; current_vertex := Some a; _i := 0 |}) as H.
  specialize (H ltac:(simpl; lia) ltac:(simpl; lia)).
  destruct (while_loop _ _ _ _ _) as [[[st ex] its]| |]; [|done|done].
  simpl in H. split; lia.
Qed.

(** ** The loop builder: what enters the loop *)

Lemma list_remove_ok x l l' :
  list_remove x l = Ok l' ->
  x ∈ l /\ l' ⊆ l /\ length l = S (length l') /\
  (NoDup l -> NoDup l' /\ x ∉ l' /\ forall y, y ∈ l -> y = x \/ y ∈ l').
Proof.
  revert l'. induction l as [|y l IH]; intros l' H; simpl in H; [done|].
  destruct (Nat.eqb_spec x y) as [->|Hne].
  - simplify_eq. split_and!; [set_solver|set_solver|done|].
    intros Hnd. apply NoDup_cons in Hnd as [Hy Hnd]. split_and!; [done|done|set_solver].
  - destruct (list_remove x l) as [l''| |]; simplify_eq/=.
    destruct (IH l'' eq_refl) as (Hin & Hsub & Hlen & Hnd).
    split_and!; [set_solver|set_solver|lia|].
    intros [Hy Hnd']%NoDup_cons. destruct (Hnd Hnd') as (H1 & H2 & H3).
    split_and!; [apply NoDup_cons; set_solver|set_solver|].
    intros z [->|Hz]%elem_of_cons; [set_solver|]. destruct (H3 z Hz); set_solver.
Qed.

Lemma loop_body_spec (Hok : HostOk h) bm kd c st st' it :
  loop_body bm kd c st = Ok (st', it) ->
  it_loop it = loop st /\
  it_candidates it ⊆ selected_vertices st /\
  selected_vertices st' ⊆ it_candidates it /\
  current_vertex st' = it_next it /\
  match it_next it with
  | Some v => loop st' = loop st ++ [v] /\ v ∈ it_candidates it /\ v ∉ loop st
  | None => loop st' = loop st
  end.
Proof.
  unfold loop_body. intros H.
  set (sel := set_iter _) in H.
  assert (sel ⊆ selected_vertices st) as Hsel.
  { intros x Hx. apply (set_iter_elem h Hok) in Hx. set_solver. }
  destruct (kd_find _ _ _) as [idx|] eqn:Hfind; [|by simplify_eq/=].
  destruct (truthy (Some idx)); [|by simplify_eq/=].
  unfold verts_getitem in H. destruct (idx <? _); simpl in H; [|done].
  destruct (list_remove idx sel) as [sel'| |] eqn:Hr; simpl in H; try done.
  simplify_eq/=.
  apply (kd_find_some h Hok) in Hfind as [Hflt _].
  unfold flt in Hflt. apply andb_prop in Hflt as [H1 H2].
  apply negb_true_iff, bool_decide_eq_false in H1. apply bool_decide_eq_true in H2.
  apply list_remove_ok in Hr as (_ & Hsub & _). done.
Qed.

Lemma while_loop_spec (Hok : HostOk h) fuel : forall bm kd _l sel0 st st' ex its,
  NoDup (loop st) ->
  selected_vertices st ⊆ sel0 ->
  while_loop fuel bm kd _l st = Ok (st', ex, its) ->
  NoDup (loop st') /\
  loop st' = loop st ++ omap it_next its /\
  Forall (fun it => forall v, it_next it = Some v ->
            v ∈ it_candidates it /\ v ∉ it_loop it /\ it_candidates it ⊆ sel0) its /\
  forall k it, its !! k = Some it -> it_loop it = loop st ++ omap it_next (take k its).
Proof.
  induction fuel as [|fuel IH]; intros bm kd _l sel0 st st' ex its Hnd Hsub H; simpl in H.
  - destruct (current_vertex st); simplify_eq/=.
    rewrite app_nil_r. split_and!; [done|done|constructor|]. intros k it Hk. done.
  - destruct (current_vertex st) as [c|]; simplify_eq/=;
      [|rewrite app_nil_r; split_and!; [done|done|constructor|]; intros k it Hk; done].
    destruct (loop_body bm kd c st) as [[st1 it1]| |] eqn:Hb; simplify_eq/=.
    apply (loop_body_spec Hok) in Hb as (Hl & Hc & Hs & Hcur & Hnext).
    assert (NoDup (loop st1) /\ loop st1 = loop st ++ omap it_next [it1]) as [Hnd1 Hl1].
    { simpl. destruct (it_next it1) as [v|]; simpl.
      - destruct Hnext as (-> & _ & Hv). split; [|done].
        apply NoDup_app. split_and!; [done|set_solver|apply NoDup_singleton].
      - rewrite Hnext, app_nil_r. done. }
    assert (forall v, it_next it1 = Some v ->
              v ∈ it_candidates it1 /\ v ∉ it_loop it1 /\ it_candidates it1 ⊆ sel0) as Hit.
    { intros v Hv. rewrite Hv in Hnext. rewrite Hl. set_solver. }
    destruct (_l <? _i st1).
    + simplify_eq/=. split_and!; [done|done|by constructor|].
      intros [|k] it Hk; simplify_eq/=; by rewrite ?app_nil_r.
    + destruct (while_loop fuel bm kd _l st1) as [[[st2 ex2] its2]| |] eqn:Hw; simplify_eq/=.
      apply (IH _ _ _ sel0) in Hw as (Hnd2 & Hl2 & Hall & Hlog); [|done|set_solver].
      split_and!; [done| |by constructor|].
      * rewrite Hl2, Hl1. simpl. destruct (it_next it1); simpl; by rewrite <- ?app_assoc.
      * intros [|k] it Hk; simplify_eq/=; [by rewrite app_nil_r|].
        rewrite (Hlog k it Hk), Hl1. simpl.
        destruct (it_next it1); simpl; by rewrite <- ?app_assoc.
Qed.

(** C3: the loop built has no duplicates; it is the seed followed by the
    vertices appended turn by turn; and each appended vertex was, in its
    turn, in the live candidate list (itself within the selection after
    pruning) and not in the loop as it stood. *)
Theorem C3_loop_nodup_from_candidates (Hok : HostOk h) bm a st ex its :
  loop_builder bm a = Ok (st, ex, its) ->
  NoDup (loop st) /\
  loop st = a :: omap it_next its /\
  Forall (fun it => forall v, it_next it = Some v ->
            v ∈ it_candidates it /\ v ∉ it_loop it /\
            it_candidates it ⊆ selected_list bm) its /\
  forall k it, its !! k = Some it -> it_loop it = a :: omap it_next (take k its).
Proof.
  unfold loop_builder. intros H.
  destruct (list_remove a (selected_list bm)) as [sel| |] eqn:Hr; [|done|done].
  apply list_remove_ok in Hr as (_ & Hsub & _).
  change (while_loop (S (length sel)) bm (kd_entries bm (selected_list bm)) (length sel)
            {| loop := [a]; selected_vertices := sel; current_vertex := Some a; _i := 0 |}
          = Ok (st, ex, its)) in H.
  refine (while_loop_spec Hok _ _ _ _ (selected_list bm) _ _ _ _ _ _ H); simpl.
  - apply NoDup_singleton.
  - done.
Qed.

End LoopBuilder.

Lemma C3_loop_witness :
  NoDup (loop square_final) /\
  loop square_final = 0 :: omap it_next square_log /\
  Forall (fun it => forall v, it_next it = Some v ->
            v ∈ it_candidates it /\ v ∉ it_loop it /\
            it_candidates it ⊆ selected_list square) square_log /\
  forall k it, square_log !! k = Some it -> it_loop it = 0 :: omap it_next (take k square_log).
Proof.
  apply (C3_loop_nodup_from_candidates first_host_ok square 0 square_final ExitOverflow).
  vm_compute. reflexivity.
Defined.

(** ** The mesh graph *)

Lemma elem_of_link_edges bm v w :
  w ∈ (other_vert v <$> link_edges bm v) <-> adjacent bm v w.
Proof.
  unfold link_edges, adjacent, other_vert, incident.
  rewrite list_elem_of_fmap. split.
  - intros ([x y] & -> & [Hi He]%list_elem_of_filter). simpl in *.
    destruct (Nat.eqb_spec x v) as [->|Hx]; [by left|].
    simpl in Hi. apply Nat.eqb_eq in Hi as ->. by right.
  - intros [He|He].
    + exists (v, w). simpl. rewrite Nat.eqb_refl. split; [done|].
      apply list_elem_of_filter. simpl. by rewrite Nat.eqb_refl.
    + exists (w, v). simpl. split.
      * by destruct (Nat.eqb_spec w v).
      * apply list_elem_of_filter. simpl. rewrite Nat.eqb_refl.
        by rewrite orb_true_r.
Qed.

Lemma adjacent_sym bm u w : adjacent bm u w -> adjacent bm w u.
Proof. unfold adjacent. tauto. Qed.

Lemma sel_linked_selected bm u w :
  sel_linked bm u w -> w = u \/ vert_select bm w = true.
Proof. destruct 1; auto. Qed.

Lemma sel_linked_trans bm u w x :
  sel_linked bm u w -> sel_linked bm w x -> sel_linked bm u x.
Proof. intros Huw Hwx. induction Hwx; [done|]. by eapply sel_linked_step. Qed.

Lemma sel_linked_sym bm u w :
  vert_select bm u = true -> sel_linked bm u w -> sel_linked bm w u.
Proof.
  intros Hu H. induction H as [|w x Huw IH Hadj Hx]; [constructor|].
  eapply sel_linked_trans; [|exact IH].
  destruct (sel_linked_selected _ _ _ Huw) as [->|Hw].
  - eapply sel_linked_step; [constructor|by apply adjacent_sym|done].
  - eapply sel_linked_step; [constructor|by apply adjacent_sym|done].
Qed.

Lemma sel_linked_mono bm0 bm1 u w :
  edges bm1 = edges bm0 ->
  (forall x, vert_select bm1 x = true -> vert_select bm0 x = true) ->
  sel_linked bm1 u w -> sel_linked bm0 u w.
Proof.
  intros He Hs H. induction H as [|w x _ IH Hadj Hx]; [constructor|].
  eapply sel_linked_step; [exact IH| |by apply Hs].
  unfold adjacent in *. by rewrite <- He.
Qed.

Lemma sel_path_linked bm u w n : sel_path bm u w n -> sel_linked bm u w.
Proof. induction 1; [constructor|by eapply sel_linked_step]. Qed.

Lemma sel_path_app bm u w x n m :
  sel_path bm u w n -> sel_path bm w x m -> sel_path bm u x (n + m).
Proof.
  intros Huw Hwx. induction Hwx as [|y z m Hwy IH Hadj Hz].
  - by rewrite Nat.add_0_r.
  - rewrite Nat.add_succ_r. by eapply sel_path_step.
Qed.

Lemma filter_local_ext {A} (P1 P2 : A -> Prop)
  `{!forall x, Decision (P1 x), !forall x, Decision (P2 x)} (l : list A) :
  (forall x, x ∈ l -> P1 x <-> P2 x) -> filter P1 l = filter P2 l.
Proof.
  induction l as [|a l IH]; intros Hext; [done|].
  rewrite !filter_cons. rewrite IH by (intros x Hx; apply Hext; set_solver).
  destruct (decide (P1 a)) as [H1|H1], (decide (P2 a)) as [H2|H2]; try done.
  - apply Hext in H1; [done|set_solver].
  - apply Hext in H2; [done|set_solver].
Qed.

Lemma foldl_local_ext {A B} (f g : A -> B -> A) (l : list B) :
  (forall a x, x ∈ l -> f a x = g a x) -> forall a, foldl f a l = foldl g a l.
Proof.
  induction l as [|x l IH]; intros Hext a; [done|]. simpl.
  rewrite Hext by set_solver. apply IH. intros; apply Hext; set_solver.
Qed.

(** ** [_linked_verts]: what it returns *)

Section LinkedVerts.
Context {h : Host} (Hok : HostOk h).

Lemma _linked_verts_grows bm deep : forall v vs, vs ⊆ _linked_verts bm v deep vs.
Proof using Type.
  clear Hok.
  induction deep as [|deep IH]; intros v vs; simpl; [done|].
  set (new := list_to_set _).
  transitivity (vs ∪ new); [set_solver|].
  generalize (vs ∪ new). generalize (set_iter new).
  intros l. induction l as [|x l IHl]; intros acc; simpl; [done|].
  etransitivity; [|apply IHl]. set_solver.
Qed.

Lemma linked_verts_seed bm v deep : v ∈ linked_verts bm v deep.
Proof using Type.
  clear Hok. apply _linked_verts_grows. set_solver. Qed.

(** every point returned beyond the given ones is linked to the start
    through selected points *)
Lemma _linked_verts_sound bm deep : forall v vs w,
  w ∈ _linked_verts bm v deep vs -> w ∈ vs \/ sel_linked bm v w.
Proof.
  induction deep as [|deep IH]; intros v vs w; simpl; [auto|].
  set (new := list_to_set _).
  assert (forall x, x ∈ new -> sel_linked bm v x /\ vert_select bm x = true) as Hnew.
  { intros x Hx. unfold new in Hx.
    apply elem_of_list_to_set, list_elem_of_filter in Hx as [[Hs _] Hadj].
    apply elem_of_link_edges in Hadj. split; [|done].
    eapply sel_linked_step; [constructor|done|done]. }
  assert (forall x, x ∈ set_iter new -> sel_linked bm v x) as Hl.
  { intros x Hx. apply (set_iter_elem h Hok) in Hx. by apply Hnew. }
  assert (forall x, x ∈ vs ∪ new -> x ∈ vs \/ sel_linked bm v x) as Hacc.
  { intros x [Hx|Hx]%elem_of_union; [auto|]. right. by apply Hnew. }
  revert Hl Hacc. generalize (vs ∪ new). generalize (set_iter new).
  intros l. induction l as [|x l IHl]; intros acc Hl Hacc; simpl; [apply Hacc|].
  apply IHl; [intros; apply Hl; set_solver|].
  intros y [Hy|Hy]%elem_of_union; [by apply Hacc|].
  apply IH in Hy as [Hy|Hy]; [by apply Hacc|].
  right. eapply sel_linked_trans; [|exact Hy]. apply Hl. set_solver.
Qed.

Lemma linked_verts_sound bm v deep w :
  w ∈ linked_verts bm v deep -> sel_linked bm v w.
Proof.
  intros Hw. apply _linked_verts_sound in Hw as [Hw|Hw]; [|done].
  apply elem_of_singleton in Hw as ->. constructor.
Qed.

(** every point returned beyond the given ones is at most [deep] edges
    away from the start along selected points *)
Lemma _linked_verts_within bm deep : forall v vs w,
  w ∈ _linked_verts bm v deep vs ->
  w ∈ vs \/ exists n, n <= deep /\ sel_path bm v w n.
Proof.
  induction deep as [|deep IH]; intros v vs w; simpl; [auto|].
  set (new := list_to_set _).
  assert (forall x, x ∈ new -> sel_path bm v x 1) as Hnew.
  { intros x Hx. unfold new in Hx.
    apply elem_of_list_to_set, list_elem_of_filter in Hx as [[Hs _] Hadj].
    apply elem_of_link_edges in Hadj.
    eapply sel_path_step; [constructor|done|done]. }
  assert (forall x, x ∈ set_iter new -> sel_path bm v x 1) as Hl.
  { intros x Hx. apply (set_iter_elem h Hok) in Hx. by apply Hnew. }
  assert (forall x, x ∈ vs ∪ new ->
            x ∈ vs \/ exists n, n <= S deep /\ sel_path bm v x n) as Hacc.
  { intros x [Hx|Hx]%elem_of_union; [auto|]. right. exists 1. split; [lia|by apply Hnew]. }
  revert Hl Hacc. generalize (vs ∪ new). generalize (set_iter new).
  intros l. induction l as [|x l IHl]; intros acc Hl Hacc; simpl; [apply Hacc|].
  apply IHl; [intros; apply Hl; set_solver|].
  intros y [Hy|Hy]%elem_of_union; [by apply Hacc|].
  apply IH in Hy as [Hy|(n & Hn & Hy)]; [by apply Hacc|].
  right. exists (1 + n). split; [lia|].
  eapply sel_path_app; [|exact Hy]. apply Hl. set_solver.
Qed.

Lemma linked_verts_within bm v deep w :
  w ∈ linked_verts bm v deep -> exists n, n <= deep /\ sel_path bm v w n.
Proof.
  intros Hw. apply _linked_verts_within in Hw as [Hw|Hw]; [|done].
  apply elem_of_singleton in Hw as ->. exists 0. split; [lia|constructor].
Qed.

(** Two meshes with the same edges give the same answer from [v] when
    they agree on the selection of every neighbour of the points of a set
    [P] that holds [v] and every selected neighbour of its points. *)
Lemma _linked_verts_agree bm0 bm1 (P : nat -> Prop) :
  edges bm1 = edges bm0 ->
  (forall u w, P u -> adjacent bm0 u w ->
     vert_select bm1 w = vert_select bm0 w /\ (vert_select bm0 w = true -> P w)) ->
  forall deep v vs, P v -> _linked_verts bm1 v deep vs = _linked_verts bm0 v deep vs.
Proof.
  intros He HP. induction deep as [|deep IH]; intros v vs Hv; simpl; [done|].
  assert (link_edges bm1 v = link_edges bm0 v) as Hle
    by (unfold link_edges; by rewrite He).
  rewrite Hle.
  rewrite (filter_local_ext
             (fun w => vert_select bm1 w = true /\ w ∉ vs)
             (fun w => vert_select bm0 w = true /\ w ∉ vs)).
  2:{ intros w Hw%elem_of_link_edges. destruct (HP v w Hv Hw) as [-> _]. done. }
  set (new := list_to_set _).
  assert (forall x, x ∈ set_iter new -> P x) as Hl.
  { intros x Hx. apply (set_iter_elem h Hok) in Hx. unfold new in Hx.
    apply elem_of_list_to_set, list_elem_of_filter in Hx as [[Hs _] Hadj].
    apply elem_of_link_edges in Hadj. by apply (HP v x Hv Hadj). }
  apply foldl_local_ext. intros acc x Hx. rewrite IH; [done|by apply Hl].
Qed.

End LinkedVerts.

(** ** Boundary pruning *)

Lemma vert_select_deselect s bm w :
  vert_select (deselect s bm) w = vert_select bm w && negb (bool_decide (w ∈ s)).
Proof.
  unfold vert_select, deselect. simpl. rewrite list_lookup_imap.
  destruct (verts bm !! w) as [x|]; simpl; [|done].
  case_bool_decide; simpl; [by rewrite andb_false_r|by rewrite andb_true_r].
Qed.

Section Prune.
Context {h : Host} (Hok : HostOk h).

Lemma prune_step_edges bm v : edges (prune_step bm v) = edges bm.
Proof using Type.
  clear Hok. unfold prune_step. by case_match. Qed.

Lemma prune_step_faces bm v : faces (prune_step bm v) = faces bm.
Proof using Type.
  clear Hok. unfold prune_step. by case_match. Qed.

Lemma prune_step_active bm v : active (prune_step bm v) = active bm.
Proof using Type.
  clear Hok. unfold prune_step. by case_match. Qed.

Lemma prune_step_co bm v : co <$> verts (prune_step bm v) = co <$> verts bm.
Proof using Type.
  clear Hok.
  unfold prune_step. case_match; [|done]. simpl.
  apply list_eq. intros i. rewrite !list_lookup_fmap, list_lookup_imap.
  destruct (verts bm !! i); simpl; [|done]. by case_bool_decide.
Qed.

Lemma prune_step_shrinks bm v x :
  vert_select (prune_step bm v) x = true -> vert_select bm x = true.
Proof using Type.
  clear Hok.
  unfold prune_step. case_match; [|done].
  rewrite vert_select_deselect. by intros [? _]%andb_prop.
Qed.

Section Cluster.
Variables (bm0 : BMesh) (b : nat).
Hypothesis Hb : vert_select bm0 b = true.
Hypothesis Huniq : forall w, sel_linked bm0 b w -> is_boundary bm0 w -> w = b.

(** The turns for vertices other than [b] leave the cluster of [b] alone. *)
Lemma prune_elsewhere l : b ∉ l -> forall bm1,
  edges bm1 = edges bm0 ->
  (forall x, vert_select bm1 x = true -> vert_select bm0 x = true) ->
  edges (foldl prune_step bm1 l) = edges bm0 /\
  (forall x, vert_select (foldl prune_step bm1 l) x = true -> vert_select bm0 x = true) /\
  (forall w, sel_linked bm0 b w ->
     vert_select (foldl prune_step bm1 l) w = vert_select bm1 w).
Proof.
  induction l as [|i l IH]; intros Hbl bm1 He Hs; simpl; [done|].
  apply not_elem_of_cons in Hbl as [Hbi Hbl].
  destruct (IH Hbl (prune_step bm1 i)) as (IH1 & IH2 & IH3).
  { by rewrite prune_step_edges. }
  { intros x Hx. by apply Hs, (prune_step_shrinks _ i). }
  split_and!; [done|done|].
  intros w Hw. rewrite (IH3 w Hw).
  unfold prune_step.
  destruct (vert_select bm1 i && (length (link_edges bm1 i) =? 1)) eqn:Hcond; [|done].
  apply andb_prop in Hcond as [Hi Hdeg]. apply Nat.eqb_eq in Hdeg.
  rewrite vert_select_deselect.
  case_bool_decide as Hin; [|by rewrite andb_true_r]. exfalso.
  apply elem_of_difference in Hin as [Hin Hne].
  apply (linked_verts_sound Hok) in Hin.
  apply (sel_linked_mono bm0) in Hin; [|done|done].
  assert (sel_linked bm0 b i) as Hbi'.
  { eapply sel_linked_trans; [exact Hw|]. apply sel_linked_sym; [by apply Hs|done]. }
  apply Hbi. symmetry. apply Huniq; [done|].
  unfold is_boundary, link_edges in *. by rewrite <- He.
Qed.

(** In the turn of [b] the search runs as on the mesh given at the start. *)
Lemma prune_own_search bm1 :
  edges bm1 = edges bm0 ->
  (forall x, vert_select bm1 x = true -> vert_select bm0 x = true) ->
  (forall w, sel_linked bm0 b w -> vert_select bm1 w = vert_select bm0 w) ->
  linked_verts bm1 b _linked_verts_recursive_deep
  = linked_verts bm0 b _linked_verts_recursive_deep.
Proof.
  intros He Hs Hk. unfold linked_verts.
  apply (_linked_verts_agree Hok bm0 bm1 (sel_linked bm0 b)); [done| |constructor].
  intros u w Hu Hadj.
  destruct (vert_select bm0 w) eqn:Hw.
  - assert (sel_linked bm0 b w) as Hbw by by eapply sel_linked_step.
    split; [|done]. by rewrite (Hk w Hbw).
  - split; [|done]. destruct (vert_select bm1 w) eqn:Hw1; [|done].
    apply Hs in Hw1. congruence.
Qed.

Lemma prune_cluster w :
  is_boundary bm0 b ->
  sel_linked bm0 b w ->
  vert_select (boundary_prune bm0) w = true <->
  w = b \/ w ∉ linked_verts bm0 b _linked_verts_recursive_deep.
Proof.
  intros Hdeg Hw. unfold boundary_prune.
  assert (vert_select (select_flush_mode
            (foldl prune_step bm0 (seq 0 (length (verts bm0))))) w
          = vert_select (foldl prune_step bm0 (seq 0 (length (verts bm0)))) w) as ->.
  { unfold vert_select. by rewrite (flush_verts h Hok). }
  assert (b < length (verts bm0)) as Hlt.
  { unfold vert_select in Hb. destruct (verts bm0 !! b) eqn:E; [|done].
    by apply lookup_lt_Some in E. }
  replace (seq 0 (length (verts bm0)))
    with (seq 0 b ++ [b] ++ seq (S b) (length (verts bm0) - S b)).
  2:{ replace (length (verts bm0)) with (b + (1 + (length (verts bm0) - S b))) at 2 by lia.
      rewrite seq_app, seq_app. simpl. do 3 f_equal. lia. }
  rewrite !foldl_app. simpl.
  set (bmA := foldl prune_step bm0 (seq 0 b)).
  destruct (prune_elsewhere (seq 0 b)) with (bm1 := bm0) as (HA1 & HA2 & HA3);
    [rewrite elem_of_seq; lia|done|done|]. fold bmA in HA1, HA2, HA3.
  destruct (prune_elsewhere (seq (S b) (length (verts bm0) - S b)))
    with (bm1 := prune_step bmA b) as (_ & _ & HB3).
  { rewrite elem_of_seq; lia. }
  { by rewrite prune_step_edges. }
  { intros x Hx. by apply HA2, (prune_step_shrinks _ b). }
  rewrite (HB3 w Hw). unfold prune_step.
  rewrite (HA3 b) by constructor. rewrite Hb. simpl.
  assert (length (link_edges bmA b) = 1) as ->.
  { unfold is_boundary, link_edges in *. by rewrite HA1. }
  simpl. rewrite vert_select_deselect, (HA3 w Hw).
  rewrite (prune_own_search bmA HA1 HA2 HA3).
  assert (vert_select bm0 w = true) as ->.
  { destruct (sel_linked_selected _ _ _ Hw) as [->|]; done. }
  simpl. rewrite negb_true_iff, bool_decide_eq_false.
  rewrite elem_of_difference, elem_of_singleton.
  destruct (decide (w = b)); tauto.
Qed.

End Cluster.
End Prune.

(** *** The chain of twelve selected points *)

Lemma chain_select k : vert_select chain k = true <-> k < 12.
Proof.
  split.
  - intros H. do 12 (destruct k as [|k]; [lia|]). by destruct k.
  - intros H. do 12 (destruct k as [|k]; [done|]). lia.
Qed.

Lemma chain_linked k : k < 12 -> sel_linked chain 0 k.
Proof.
  induction k as [|k IH]; intros Hk; [constructor|].
  eapply sel_linked_step; [apply IH; lia| |by apply chain_select].
  left. change ((k, S k) ∈ (fun i => (i, S i)) <$> seq 0 12).
  apply list_elem_of_fmap.
  exists k. split; [done|]. apply elem_of_seq. lia.
Qed.

Lemma chain_unique_boundary w :
  sel_linked chain 0 w -> is_boundary chain w -> w = 0.
Proof.
  intros Hw Hdeg. apply sel_linked_selected in Hw as [->|Hw]; [done|].
  apply chain_select in Hw.
  do 12 (destruct w as [|w]; [try done; by vm_compute in Hdeg|]). lia.
Qed.

Lemma chain_boundary : is_boundary chain 0.
Proof. reflexivity. Qed.

(** The formal reading of C5 as first stated fails on the chain: vertex
    11 is in the cluster of the boundary vertex 0 and stays selected. *)
Lemma C5_chain_counterexample :
  ~ (forall (h : Host), HostOk h ->
     forall bm b,
       vert_select bm b = true -> is_boundary bm b ->
       (forall w, sel_linked bm b w -> is_boundary bm w -> w = b) ->
       forall w, sel_linked bm b w ->
         (vert_select (boundary_prune bm) w = true <-> w = b)).
Proof.
  intros H.
  specialize (H first_host first_host_ok chain 0 eq_refl chain_boundary
                chain_unique_boundary 11 (chain_linked 11 ltac:(lia))).
  assert (vert_select (boundary_prune (h:=first_host) chain) 11 = true) as Hsel
    by (vm_compute; reflexivity).
  apply H in Hsel. discriminate.
Qed.

(** ** Sets with at most one element are visited in one way *)

Section SmallSets.
Context {h : Host} (Hok : HostOk h).

Lemma set_iter_empty : set_iter ∅ = [].
Proof.
  apply elem_of_nil_inv. intros x Hx.
  apply (set_iter_elem h Hok) in Hx. set_solver.
Qed.

Lemma set_iter_singleton x : set_iter {[x]} = [x].
Proof.
  pose proof (set_iter_nodup h Hok {[x]}) as Hnd.
  pose proof (set_iter_elem h Hok {[x]}) as Hel.
  destruct (set_iter {[x]}) as [|y l].
  - exfalso. apply (elem_of_nil x), Hel. set_solver.
  - assert (y = x) as -> by (apply (elem_of_singleton (C:=gset nat)), Hel; set_solver).
    f_equal. apply elem_of_nil_inv. intros z Hz.
    apply NoDup_cons in Hnd as [Hx _].
    assert (z = x) as -> by (apply (elem_of_singleton (C:=gset nat)), Hel; set_solver).
    done.
Qed.

(** a vertex without edges is linked to itself only *)
Lemma linked_verts_isolated bm v deep :
  link_edges bm v = [] -> linked_verts bm v deep = {[v]}.
Proof.
  intros He. unfold linked_verts. destruct deep as [|deep]; simpl; [done|].
  rewrite He. simpl.
  rewrite set_iter_empty. simpl. by rewrite union_empty_r_L.
Qed.

End SmallSets.

(** ** What the pruning stage leaves alone *)

Lemma short_list_with (a : nat) (l : list nat) : a ∈ l -> length l < 2 -> l = [a].
Proof.
  intros Ha Hl. destruct l as [|x [|y l]]; simpl in Hl; [set_solver| |lia].
  apply list_elem_of_singleton in Ha. by subst.
Qed.

Section PruneFrame.
Context {h : Host} (Hok : HostOk h).

Lemma foldl_prune_step_frame l : forall bm,
  edges (foldl prune_step bm l) = edges bm /\
  faces (foldl prune_step bm l) = faces bm /\
  active (foldl prune_step bm l) = active bm /\
  co <$> verts (foldl prune_step bm l) = co <$> verts bm.
Proof using Type.
  clear Hok.
  induction l as [|v l IH]; intros bm; simpl; [done|].
  destruct (IH (prune_step bm v)) as (-> & -> & -> & ->).
  by rewrite prune_step_edges, prune_step_faces, prune_step_active, prune_step_co.
Qed.

Lemma boundary_prune_frame bm :
  edges (boundary_prune bm) = edges bm /\
  faces (boundary_prune bm) = faces bm /\
  co <$> verts (boundary_prune bm) = co <$> verts bm.
Proof.
  unfold boundary_prune.
  rewrite (flush_edges h Hok), (flush_faces h Hok), (flush_verts h Hok).
  destruct (foldl_prune_step_frame (seq 0 (length (verts bm))) bm) as (? & ? & ? & ?).
  done.
Qed.

Lemma boundary_prune_no_active bm :
  active bm = None -> active (boundary_prune bm) = None.
Proof.
  intros Ha. unfold boundary_prune. apply (flush_no_active h Hok).
  destruct (foldl_prune_step_frame (seq 0 (length (verts bm))) bm) as (_ & _ & -> & _).
  done.
Qed.

(** ** The degenerate run: the seed is the only candidate *)

Lemma loop_builder_single bm a :
  selected_list bm = [a] ->
  loop_builder bm a =
    Ok ({| loop := [a]; selected_vertices := []; current_vertex := None; _i := 1 |},
        ExitOverflow,
        [{| it_loop := [a]; it_candidates := []; it_found := None; it_next := None |}]).
Proof.
  intros Hsel. unfold loop_builder. rewrite Hsel. simpl.
  rewrite Nat.eqb_refl. simpl. unfold loop_body. simpl.
  rewrite difference_disjoint_L by set_solver.
  rewrite (set_iter_empty Hok).
  destruct (kd_find _ _ _) as [idx|] eqn:Hfind; [|done].
  apply (kd_find_some h Hok) in Hfind as [Hflt _].
  unfold flt in Hflt. apply andb_prop in Hflt as [_ Hflt].
  apply bool_decide_eq_true in Hflt. by apply elem_of_nil in Hflt.
Qed.

End PruneFrame.

(** C7, amended: when the selection left by the pruning stage has fewer
    than two points and holds the active point, the loop is the seed alone,
    the chunking stage gives no pair, and the mesh written back is the mesh
    as the pruning stage left it (the input itself when boundary priority
    is off): no edge or face is added, no coordinate changes, and nothing
    is raised. *)
Theorem C7_degenerate_selection (h : Host) (Hok : HostOk h)
  (bm : BMesh) (boundary_priority : bool) (a : nat) :
  let bm' := if boundary_priority then boundary_prune bm else bm in
  active bm' = Some a ->
  a ∈ selected_list bm' ->
  length (selected_list bm') < 2 ->
  (exists st ex its, loop_builder bm' a = Ok (st, ex, its) /\ loop st = [a]) /\
  edge_chunks [a] = Ok [] /\
  connect_loop bm boundary_priority = Ok bm' /\
  edges bm' = edges bm /\ faces bm' = faces bm /\
  co <$> verts bm' = co <$> verts bm.
Proof.
  intros bm' Hact Hin Hlen.
  pose proof (short_list_with a _ Hin Hlen) as Hsel.
  pose proof (loop_builder_single Hok bm' a Hsel) as Hlb.
  split_and!.
  - eauto.
  - done.
  - unfold connect_loop. fold bm'. rewrite Hact, Hlb. done.
  - subst bm'. destruct boundary_priority; [|done]. apply (boundary_prune_frame Hok).
  - subst bm'. destruct boundary_priority; [|done]. apply (boundary_prune_frame Hok).
  - subst bm'. destruct boundary_priority; [|done]. apply (boundary_prune_frame Hok).
Qed.

(** one selected vertex, which is active *)
Lemma C7_degenerate_witness :
  (exists st ex its,
      loop_builder (h:=first_host) (boundary_prune (h:=first_host) lone) 0
      = Ok (st, ex, its) /\ loop st = [0]) /\
  edge_chunks [0] = Ok [] /\
  connect_loop (h:=first_host) lone true = Ok (boundary_prune (h:=first_host) lone) /\
  edges (boundary_prune (h:=first_host) lone) = edges lone /\
  faces (boundary_prune (h:=first_host) lone) = faces lone /\
  co <$> verts (boundary_prune (h:=first_host) lone) = co <$> verts lone.
Proof.
  apply (C7_degenerate_selection first_host first_host_ok lone true 0).
  - reflexivity.
  - vm_compute. apply list_elem_of_here.
  - vm_compute. lia.
Defined.

(** The formal reading of C7 as first stated fails on the stub with
    vertex 0 active and boundary priority on: pruning leaves vertex 0
    alone in the selection, and the mesh written back is not the input,
    vertex 1 having been deselected. *)
Lemma C7_stub_counterexample :
  ~ (forall (h : Host), HostOk h ->
     forall (bm : BMesh) (boundary_priority : bool),
       length (selected_list (if boundary_priority then boundary_prune bm else bm)) < 2 ->
       connect_loop bm boundary_priority = Ok bm).
Proof.
  intros H.
  specialize (H first_host first_host_ok (stub (Some 0)) true).
  assert (connect_loop (h:=first_host) (stub (Some 0)) true = Ok (stub (Some 0))) as Hrun.
  { apply H. vm_compute. lia. }
  vm_compute in Hrun. discriminate Hrun.
Qed.

(** *** A single selected point *)

Lemma deselect_empty bm : deselect ∅ bm = bm.
Proof.
  destruct bm as [vs es fs a]. unfold deselect. simpl. f_equal.
  apply list_eq. intros i. rewrite list_lookup_imap.
  destruct (vs !! i); simpl; [|done]. by rewrite bool_decide_eq_false_2 by set_solver.
Qed.

Lemma selected_list_elem bm v : v ∈ selected_list bm <-> vert_select bm v = true.
Proof.
  unfold selected_list. rewrite list_elem_of_filter, elem_of_seq. split; [tauto|].
  intros Hv. split; [done|]. unfold vert_select in Hv.
  destruct (verts bm !! v) eqn:E; [|done]. apply lookup_lt_Some in E. lia.
Qed.

(** With one selected point the pruning pass deselects nothing, so that
    point is still the whole selection when the loop is built. *)
Lemma single_selected_point (h : Host) (Hok : HostOk h) bm a :
  selected_list bm = [a] ->
  selected_list (boundary_prune bm) = [a].
Proof.
  intros Hsel.
  assert (forall v, prune_step bm v = bm) as Hstep.
  { intros v. unfold prune_step.
    destruct (vert_select bm v && _) eqn:Hc; [|done].
    apply andb_prop in Hc as [Hv _].
    apply selected_list_elem in Hv. rewrite Hsel in Hv.
    apply list_elem_of_singleton in Hv as ->.
    replace (linked_verts bm a _linked_verts_recursive_deep ∖ {[a]}) with (∅ : gset nat);
      [apply deselect_empty|].
    symmetry. apply set_eq. intros w. split; [|set_solver].
    intros [Hw Hne]%elem_of_difference. exfalso. apply Hne, elem_of_singleton.
    apply (linked_verts_sound Hok), sel_linked_selected in Hw as [->|Hw]; [done|].
    apply selected_list_elem in Hw. rewrite Hsel in Hw.
    by apply list_elem_of_singleton in Hw. }
  assert (forall l, foldl prune_step bm l = bm) as Hfold.
  { induction l as [|v l IH]; simpl; [done|]. by rewrite Hstep. }
  unfold boundary_prune. rewrite Hfold.
  unfold selected_list, vert_select in *. by rewrite (flush_verts h Hok).
Qed.

(** The formal reading of C8 as first stated fails: without an active
    point the pruning stage still deselects vertex 1 of the stub. *)
Lemma C8_stub_counterexample :
  ~ (forall (h : Host), HostOk h ->
     forall bm boundary_priority,
       active bm = None -> connect_loop bm boundary_priority = Ok bm).
Proof.
  intros H. specialize (H first_host first_host_ok (stub None) true eq_refl).
  vm_compute in H. discriminate.
Qed.

(** C8, amended: without an active point nothing is raised and no edge or
    face is created; the mesh written back is the input when
    [boundary_priority] is off, and the input with its selection pruned
    when it is on. *)
Theorem C8_no_active_point (h : Host) (Hok : HostOk h)
  (bm : BMesh) (boundary_priority : bool) :
  active bm = None ->
  connect_loop bm boundary_priority
    = Ok (if boundary_priority then boundary_prune bm else bm) /\
  edges (boundary_prune bm) = edges bm /\
  faces (boundary_prune bm) = faces bm /\
  co <$> verts (boundary_prune bm) = co <$> verts bm.
Proof.
  intros Ha. split; [|apply (boundary_prune_frame Hok)].
  unfold connect_loop. destruct boundary_priority.
  - by rewrite (boundary_prune_no_active Hok).
  - by rewrite Ha.
Qed.

Lemma C8_no_active_witness :
  connect_loop (h:=first_host) (stub None) true
    = Ok (boundary_prune (h:=first_host) (stub None)) /\
  edges (boundary_prune (h:=first_host) (stub None)) = edges (stub None) /\
  faces (boundary_prune (h:=first_host) (stub None)) = faces (stub None) /\
  co <$> verts (boundary_prune (h:=first_host) (stub None)) = co <$> verts (stub None).
Proof.
  apply (C8_no_active_point first_host first_host_ok (stub None) true). reflexivity.
Defined.

(** ** Runs on the example meshes, for every host that keeps the contract *)

Section Runs.
Context {h : Host} (Hok : HostOk h).

Lemma foldl_linked_grows bm deep (l : list nat) : forall acc : gset nat,
  acc ⊆ foldl (fun verts vert => verts ∪ _linked_verts bm vert deep verts) acc l.
Proof using Type.
  clear Hok.
  induction l as [|x l IH]; intros acc; simpl; [done|].
  etransitivity; [|apply IH]. set_solver.
Qed.

(** with a positive depth every selected neighbour of the start is returned *)
Lemma linked_verts_neighbour bm v deep w :
  adjacent bm v w -> vert_select bm w = true -> w ∈ linked_verts bm v (S deep).
Proof using Type.
  clear Hok.
  intros Hadj Hw. unfold linked_verts. simpl.
  apply foldl_linked_grows.
  destruct (decide (w = v)) as [->|Hne]; [set_solver|].
  apply elem_of_union_r, elem_of_list_to_set, list_elem_of_filter.
  split; [split; [done|set_solver]|]. by apply elem_of_link_edges.
Qed.

Lemma stub_cluster a w : sel_linked (stub a) 0 w -> w = 0 \/ w = 1.
Proof using Type.
  clear Hok.
  intros H. apply sel_linked_selected in H as [->|H]; [by left|].
  destruct w as [|[|[|w]]]; [by left|by right|done|done].
Qed.

Lemma stub_linked_verts a :
  linked_verts (stub a) 0 _linked_verts_recursive_deep = {[0; 1]}.
Proof.
  apply set_eq. intros w. split.
  - intros Hw%(linked_verts_sound Hok)%stub_cluster. set_solver.
  - intros [->%elem_of_singleton| ->%elem_of_singleton]%elem_of_union.
    + apply linked_verts_seed.
    + apply linked_verts_neighbour; [|done]. left. set_solver.
Qed.

Lemma stub_pruned a :
  foldl prune_step (stub a) (seq 0 (length (verts (stub a)))) =
  {| verts := [vtx 0 0 0 true; vtx 1 0 0 false; vtx 2 0 0 false];
     edges := [(0, 1); (1, 2)]; faces := []; active := a |}.
Proof.
  simpl. unfold prune_step at 3. simpl.
  rewrite stub_linked_verts. reflexivity.
Qed.

Lemma index_zero_pair_run :
  loop_builder index_zero_pair 1 =
    Ok ({| loop := [1]; selected_vertices := [0]; current_vertex := None; _i := 1 |},
        ExitDone,
        [{| it_loop := [1]; it_candidates := [0]; it_found := Some 0; it_next := None |}]).
Proof.
  unfold loop_builder.
  change (selected_list index_zero_pair) with [0; 1].
  change (list_remove 1 [0; 1]) with (Ok [0]).
  cbn [mbind result_bind length while_loop current_vertex].
  unfold loop_body. cbn [selected_vertices loop _i].
  rewrite (linked_verts_isolated Hok) by reflexivity.
  replace (list_to_set [0] ∖ {[1]} : gset nat) with ({[0]} : gset nat) by set_solver.
  rewrite (set_iter_singleton Hok).
  destruct (kd_find _ _ _) as [idx|] eqn:Hfind.
  - apply (kd_find_some h Hok) in Hfind as [Hflt _].
    unfold flt in Hflt. apply andb_prop in Hflt as [_ Hflt].
    apply bool_decide_eq_true, list_elem_of_singleton in Hflt as ->. reflexivity.
  - apply (kd_find_none h Hok) with (c := (1, 0, 0)%Z) (j := 0) in Hfind.
    + discriminate Hfind.
    + simpl. lia.
    + repeat constructor; simpl; lia.
    + apply list_elem_of_here.
Qed.

End Runs.

(** C1: the run on [index_zero_pair].  [kd.find] returns the eligible
    vertex of index 0, and the test [if index] takes it for no result: the
    vertex is not appended and does not become the tip, it stays in the
    candidate list, and the loop is left with the seed alone. *)
Theorem C1_index_zero_result_discarded (h : Host) (Hok : HostOk h) :
  loop_builder index_zero_pair 1 =
    Ok ({| loop := [1]; selected_vertices := [0]; current_vertex := None; _i := 1 |},
        ExitDone,
        [{| it_loop := [1]; it_candidates := [0]; it_found := Some 0; it_next := None |}]).
Proof. apply (index_zero_pair_run Hok). Qed.

Lemma C1_index_zero_witness :
  loop_builder (h:=first_host) index_zero_pair 1 =
    Ok ({| loop := [1]; selected_vertices := [0]; current_vertex := None; _i := 1 |},
        ExitDone,
        [{| it_loop := [1]; it_candidates := [0]; it_found := Some 0; it_next := None |}]).
Proof. apply (C1_index_zero_result_discarded first_host first_host_ok). Defined.

(** The stub with vertex 1 active and boundary priority on: pruning
    deselects the active vertex, a flush that drops deselected vertices
    from the selection history leaves no active vertex, and no loop is
    built. *)
Lemma stub_validated_history :
  connect_loop (h:=first_host) (stub (Some 1)) true =
    Ok {| verts := [vtx 0 0 0 true; vtx 1 0 0 false; vtx 2 0 0 false];
          edges := [(0, 1); (1, 2)]; faces := []; active := None |}.
Proof. vm_compute. reflexivity. Qed.

(** ** The search of depth 3 on the lantern *)

Section Lantern.
Context {h : Host} (Hok : HostOk h).

Lemma set_iter_pair (x y : nat) :
  x <> y -> set_iter {[x; y]} = [x; y] \/ set_iter {[x; y]} = [y; x].
Proof.
  intros Hne.
  pose proof (set_iter_nodup h Hok {[x; y]}) as Hnd.
  pose proof (set_iter_elem h Hok {[x; y]}) as Hel.
  destruct (set_iter {[x; y]}) as [|a [|b [|c l]]].
  - exfalso. apply (elem_of_nil x), Hel. set_solver.
  - exfalso. assert (x ∈ [a]) as Hx by (apply Hel; set_solver).
    assert (y ∈ [a]) as Hy by (apply Hel; set_solver).
    apply list_elem_of_singleton in Hx, Hy. congruence.
  - assert (a ∈ ({[x; y]} : gset nat)) as Ha by (apply Hel; set_solver).
    assert (b ∈ ({[x; y]} : gset nat)) as Hb by (apply Hel; set_solver).
    apply NoDup_cons in Hnd as [Hab _].
    assert (a <> b) by set_solver.
    apply elem_of_union in Ha as [Ha|Ha], Hb as [Hb|Hb];
      apply elem_of_singleton in Ha, Hb; subst; try done; auto.
  - exfalso.
    assert (a ∈ ({[x; y]} : gset nat)) as Ha by (apply Hel; set_solver).
    assert (b ∈ ({[x; y]} : gset nat)) as Hb by (apply Hel; set_solver).
    assert (c ∈ ({[x; y]} : gset nat)) as Hc by (apply Hel; set_solver).
    apply NoDup_cons in Hnd as [Hab Hnd]. apply NoDup_cons in Hnd as [Hbc _].
    assert (a <> b /\ a <> c /\ b <> c) as (? & ? & ?) by set_solver.
    apply elem_of_union in Ha as [Ha|Ha], Hb as [Hb|Hb], Hc as [Hc|Hc];
      apply elem_of_singleton in Ha, Hb, Hc; subst; done.
Qed.

(** at depth 0 the turns of the [for] loop change nothing *)
Lemma foldl_depth_zero bm (l : list nat) (acc : gset nat) :
  foldl (fun verts vert => verts ∪ _linked_verts bm vert 0 verts) acc l = acc.
Proof using Type.
  clear Hok. induction l as [|x l IH]; simpl; [done|].
  by rewrite union_idemp_L.
Qed.

Lemma _linked_verts_unfold bm v deep (vs new : gset nat) :
  list_to_set (filter (fun w => vert_select bm w = true /\ w ∉ vs)
                      (other_vert v <$> link_edges bm v)) = new ->
  _linked_verts bm v (S deep) vs =
    foldl (fun verts vert => verts ∪ _linked_verts bm vert deep verts)
          (vs ∪ new) (set_iter new).
Proof using Type. clear Hok. by intros <-. Qed.

Lemma lantern_search :
  linked_verts lantern 0 3 = {[0; 1; 2; 3; 4; 6]} \/
  linked_verts lantern 0 3 = {[0; 1; 2; 3; 4; 5]}.
Proof.
  unfold linked_verts.
  rewrite (_linked_verts_unfold lantern 0 2 _ {[1; 2]}) by (vm_compute; reflexivity).
  destruct (set_iter_pair 1 2) as [-> | ->]; [done| |]; [left|right]; cbn [foldl].
  - rewrite (_linked_verts_unfold lantern 1 1 _ {[3]}) by (vm_compute; reflexivity).
    rewrite (set_iter_singleton Hok). cbn [foldl].
    rewrite (_linked_verts_unfold lantern 3 0 _ {[4; 6]}) by (vm_compute; reflexivity).
    rewrite foldl_depth_zero.
    rewrite (_linked_verts_unfold lantern 2 1 _ ∅) by (vm_compute; reflexivity).
    rewrite (set_iter_empty Hok). cbn [foldl].
    vm_compute. reflexivity.
  - rewrite (_linked_verts_unfold lantern 2 1 _ {[4]}) by (vm_compute; reflexivity).
    rewrite (set_iter_singleton Hok). cbn [foldl].
    rewrite (_linked_verts_unfold lantern 4 0 _ {[3; 5]}) by (vm_compute; reflexivity).
    rewrite foldl_depth_zero.
    rewrite (_linked_verts_unfold lantern 1 1 _ ∅) by (vm_compute; reflexivity).
    rewrite (set_iter_empty Hok). cbn [foldl].
    vm_compute. reflexivity.
Qed.

End Lantern.

Lemma lantern_paths : sel_path lantern 0 5 3 /\ sel_path lantern 0 6 3.
Proof.
  split.
  - apply (sel_path_step _ _ 4 5 2); [|left; compute_done|done].
    apply (sel_path_step _ _ 2 4 1); [|right; compute_done|done].
    apply (sel_path_step _ _ 0 2 0); [constructor|left; compute_done|done].
  - apply (sel_path_step _ _ 3 6 2); [|left; compute_done|done].
    apply (sel_path_step _ _ 1 3 1); [|left; compute_done|done].
    apply (sel_path_step _ _ 0 1 0); [constructor|left; compute_done|done].
Qed.

(** C6: the search of depth 3 from vertex 0 of the lantern.  Vertices 5
    and 6 are both three edges away from vertex 0 along selected points,
    and the search misses one of them.  When vertex 1 is visited before
    vertex 2, vertex 4 is first met with no depth left and its neighbour 5
    is never reached; in the other order the same happens to vertex 3 and
    its neighbour 6. *)
Theorem C6_lantern_misses_near_points (h : Host) (Hok : HostOk h) :
  sel_path lantern 0 5 3 /\ sel_path lantern 0 6 3 /\
  (5 ∉ linked_verts lantern 0 3 \/ 6 ∉ linked_verts lantern 0 3).
Proof.
  destruct lantern_paths as [H5 H6]. split_and!; [done|done|].
  destruct (lantern_search Hok) as [-> | ->]; [left|right]; compute_done.
Qed.

Lemma C6_lantern_witness :
  sel_path lantern 0 5 3 /\ sel_path lantern 0 6 3 /\
  (5 ∉ linked_verts (h:=first_host) lantern 0 3 \/
   6 ∉ linked_verts (h:=first_host) lantern 0 3).
Proof. apply (C6_lantern_misses_near_points first_host first_host_ok). Defined.

(** the two orders, on the two hosts *)
Lemma lantern_either_order :
  6 ∉ linked_verts (h:=first_host) lantern 0 3 /\
  5 ∉ linked_verts (h:=last_host) lantern 0 3.
Proof. split; compute_done. Qed.

(** ** Greedy hops on a tip without edges *)

Section Hops.
Context {h : Host} (Hok : HostOk h).

Lemma flt_set_iter lp cand j :
  flt lp (set_iter cand) j = true <-> j ∉ lp /\ j ∈ cand.
Proof.
  unfold flt. rewrite andb_true_iff, negb_true_iff.
  rewrite bool_decide_eq_false, bool_decide_eq_true.
  by rewrite (set_iter_elem h Hok).
Qed.


Lemma list_remove_in x l : x ∈ l -> exists l', list_remove x l = Ok l'.
Proof using Type.
  clear Hok.
  induction l as [|y l IH]; intros Hx; [by apply elem_of_nil in Hx|]. simpl.
  destruct (Nat.eqb_spec x y) as [->|Hne]; [eauto|].
  destruct IH as [l' ->]; [set_solver|]. simpl. eauto.
Qed.



End Hops.

(** ** The only exception of the loop builder *)

Section Exceptions.
Context {h : Host} (Hok : HostOk h).

Lemma list_remove_not_in x l : x ∉ l -> list_remove x l = Raise ValueError.
Proof using Type.
  clear Hok.
  induction l as [|y l IH]; intros Hx; [done|]. simpl.
  destruct (Nat.eqb_spec x y) as [->|Hne]; [set_solver|].
  rewrite IH by set_solver. done.
Qed.

Lemma loop_body_returns bm kd c st :
  (forall c' j, (c', j) ∈ kd -> j < length (verts bm)) ->
  exists st' it, loop_body bm kd c st = Ok (st', it).
Proof.
  intros Hkd. unfold loop_body.
  destruct (kd_find _ _ _) as [idx|] eqn:Hfind; [|by eexists _, _].
  destruct idx as [|n]; [by eexists _, _|]. simpl.
  apply (kd_find_some h Hok) in Hfind as (Hflt & c' & Hin & _).
  apply (flt_set_iter Hok) in Hflt as [_ Hcand].
  unfold verts_getitem. apply Hkd, Nat.ltb_lt in Hin. rewrite Hin. simpl.
  destruct (list_remove_in (S n) (set_iter
              (list_to_set (selected_vertices st)
                 ∖ linked_verts bm c _linked_verts_recursive_deep))) as [sel' ->];
    [by apply (set_iter_elem h Hok)|].
  simpl. by eexists _, _.
Qed.

Lemma while_loop_no_raise bm kd _l fuel : forall st,
  (forall c' j, (c', j) ∈ kd -> j < length (verts bm)) ->
  ~ raises (while_loop fuel bm kd _l st).
Proof.
  induction fuel as [|fuel IH]; intros st Hkd [e He]; simpl in He.
  - by destruct (current_vertex st).
  - destruct (current_vertex st) as [c|]; [|done].
    destruct (loop_body_returns bm kd c st Hkd) as (st' & it & Hb).
    rewrite Hb in He. simpl in He.
    destruct (_l <? _i st'); [done|].
    destruct (while_loop fuel bm kd _l st') as [[[st'' ex] its]| |] eqn:Hw;
      simpl in He; [done| |done].
    apply (IH st' Hkd). by eexists.
Qed.

(** The loop builder raises exactly when the seed is not in the selection
    it is given: the exception of [selected_vertices.remove]. *)
Lemma loop_builder_raises bm a :
  raises (loop_builder bm a) <-> a ∉ selected_list bm.
Proof.
  unfold loop_builder. split.
  - intros Hr Ha. apply list_remove_in in Ha as [sel Hsel].
    rewrite Hsel in Hr. revert Hr. apply while_loop_no_raise.
    intros c' j (v & [= -> ->] & Hv%list_elem_of_filter)%list_elem_of_fmap.
    destruct Hv as [_ Hv]. apply elem_of_seq in Hv. lia.
  - intros Ha. rewrite list_remove_not_in by done. by exists ValueError.
Qed.

End Exceptions.

(** ** The run on the unit square *)

Section Square.
Context {h : Host} (Hok : HostOk h).






End Square.




(** with ties going to the entry inserted first the order is the one of
    the design document *)
Lemma square_first_host :
  connect_loop (h:=first_host) square false = Ok (square_with [(0, 1); (1, 2); (2, 3)]).
Proof. vm_compute. reflexivity. Qed.

(** * Further properties of the code *)

(** ** [_linked_verts]: what is always found *)

Section Found.
Context {h : Host} (Hok : HostOk h).

Lemma _linked_verts_neighbour bm v deep (vs : gset nat) w :
  adjacent bm v w -> vert_select bm w = true -> w ∈ _linked_verts bm v (S deep) vs.
Proof using Type.
  clear Hok. intros Hadj Hw. simpl. apply foldl_linked_grows.
  destruct (decide (w ∈ vs)) as [Hin|Hin]; [set_solver|].
  apply elem_of_union_r, elem_of_list_to_set, list_elem_of_filter.
  split; [done|]. by apply elem_of_link_edges.
Qed.

Lemma foldl_linked_turn bm deep w x (l : list nat) :
  x ∈ l ->
  (forall acc : gset nat, w ∈ _linked_verts bm x deep acc) ->
  forall acc : gset nat,
    w ∈ foldl (fun verts vert => verts ∪ _linked_verts bm vert deep verts) acc l.
Proof using Type.
  clear Hok. intros Hx Hw. induction l as [|y l IH]; intros acc; simpl.
  - by apply elem_of_nil in Hx.
  - apply elem_of_cons in Hx as [<-|Hx]; [|by apply IH].
    apply foldl_linked_grows. apply elem_of_union_r, Hw.
Qed.

Lemma sel_path_inv bm u x n :
  sel_path bm u x n ->
  match n with
  | 0 => x = u
  | S m => exists w, sel_path bm u w m /\ adjacent bm w x /\ vert_select bm x = true
  end.
Proof using Type. clear Hok. destruct 1; eauto. Qed.

Lemma linked_verts_two_edges bm v deep w n :
  sel_path bm v w n -> n <= 2 -> w ∈ linked_verts bm v (S (S deep)).
Proof.
  intros Hp Hn. apply sel_path_inv in Hp.
  destruct n as [|n]; [subst; apply linked_verts_seed|].
  destruct Hp as (x & Hp & Hadj & Hw). apply sel_path_inv in Hp.
  destruct n as [|n]; [subst; by apply linked_verts_neighbour|].
  destruct Hp as (y & Hp & Hadjx & Hx). apply sel_path_inv in Hp.
  destruct n as [|n]; [subst y|lia].
  destruct (decide (x = v)) as [->|Hne]; [by apply linked_verts_neighbour|].
  unfold linked_verts. rewrite (_linked_verts_unfold bm v (S deep) _ _ eq_refl).
  apply (foldl_linked_turn bm (S deep) w x).
  - apply (set_iter_elem h Hok), elem_of_list_to_set, list_elem_of_filter.
    split; [split; [done|set_solver]|]. by apply elem_of_link_edges.
  - intros acc. by apply _linked_verts_neighbour.
Qed.

(** *** Small clusters are searched completely *)

Section Small.
Variables (bm : BMesh) (C : gset nat).
Hypothesis HC : forall u w, u ∈ C -> adjacent bm u w -> vert_select bm w = true -> w ∈ C.

Lemma sel_closed_mono (R R' : gset nat) u : R ⊆ R' -> sel_closed bm R u -> sel_closed bm R' u.
Proof using Type. clear Hok HC. intros HR Hc w Hadj Hw. by apply HR, Hc. Qed.

(** [S] holds the vertices on the way from the start of the search to [v]:
    when the depth is used up they fill the cluster, and otherwise every
    vertex the call adds has all its selected neighbours in the result. *)
Lemma small_core deep : forall v (vs S : gset nat),
  v ∈ vs -> S ⊆ vs -> v ∉ S -> S ⊆ C -> v ∈ C ->
  size C <= size S + 1 + deep ->
  C ⊆ _linked_verts bm v deep vs \/
  forall u, u = v \/ (u ∈ _linked_verts bm v deep vs /\ u ∉ vs) ->
    sel_closed bm (_linked_verts bm v deep vs) u.
Proof.
  induction deep as [|deep IH]; intros v vs S Hv HS HvS HSC HvC Hsize.
  - left. simpl.
    assert (S ∪ {[v]} = C) as <-; [|set_solver].
    apply set_subseteq_size_eq; [set_solver|].
    rewrite size_union, size_singleton by set_solver. lia.
  - simpl. set (new := list_to_set _ : gset nat).
    assert (forall x, x ∈ new ->
              adjacent bm v x /\ vert_select bm x = true /\ x ∉ vs) as Hnew.
    { intros x Hx. unfold new in Hx.
      apply elem_of_list_to_set, list_elem_of_filter in Hx as [[Hs Hn] Hadj].
      by apply elem_of_link_edges in Hadj. }
    assert (sel_closed bm (vs ∪ new) v) as Hv0.
    { intros w Hadj Hw. destruct (decide (w ∈ vs)); [set_solver|].
      apply elem_of_union_r, elem_of_list_to_set, list_elem_of_filter.
      split; [done|]. by apply elem_of_link_edges. }
    set (f := fun (verts : gset nat) vert => verts ∪ _linked_verts bm vert deep verts).
    assert (forall l acc,
              (forall x, x ∈ l -> x ∈ new) ->
              vs ∪ new ⊆ acc ->
              (C ⊆ acc \/ forall u, u = v \/ (u ∈ acc /\ u ∉ vs) ->
                            sel_closed bm acc u \/ u ∈ l) ->
              C ⊆ foldl f acc l \/
              forall u, u = v \/ (u ∈ foldl f acc l /\ u ∉ vs) ->
                sel_closed bm (foldl f acc l) u) as Hfold.
    { induction l as [|x l IHl]; intros acc Hl Hacc HJ; simpl.
      - destruct HJ as [HJ|HJ]; [by left|right].
        intros u Hu. destruct (HJ u Hu) as [?|Hin]; [done|by apply elem_of_nil in Hin].
      - assert (acc ⊆ _linked_verts bm x deep acc) as Hgrow
          by apply _linked_verts_grows.
        assert (f acc x = _linked_verts bm x deep acc) as Hf
          by (unfold f; set_solver).
        destruct (Hnew x (Hl x ltac:(set_solver))) as (Hadjx & Hselx & Hxvs).
        apply IHl; [intros; apply Hl; set_solver|rewrite Hf; set_solver|].
        rewrite Hf.
        destruct HJ as [HJ|HJ]; [left; set_solver|].
        destruct (IH x acc (S ∪ {[v]})) as [Hall|Hcl].
        + apply Hacc. set_solver.
        + set_solver.
        + set_solver.
        + set_solver.
        + by apply (HC v).
        + rewrite size_union, size_singleton by set_solver. lia.
        + by left.
        + right. intros u Hu.
          destruct (decide (u ∈ acc)) as [Huacc|Huacc].
          * destruct (HJ u) as [Hc|Hin].
            { destruct Hu as [->|[_ ?]]; [by left|by right]. }
            { left. by eapply sel_closed_mono. }
            apply elem_of_cons in Hin as [->|Hin]; [|by right].
            left. apply Hcl. by left.
          * left. apply Hcl. right. split; [|done].
            destruct Hu as [->|[? _]]; [|done]. exfalso. apply Huacc, Hacc. set_solver. }
    apply Hfold.
    + intros x Hx. by apply (set_iter_elem h Hok) in Hx.
    + done.
    + right. intros u [->|[Hu Hn]]; [by left|].
      right. apply (set_iter_elem h Hok). set_solver.
Qed.

Lemma small_cluster_complete v deep w :
  v ∈ C -> size C <= S deep -> sel_linked bm v w -> w ∈ linked_verts bm v deep.
Proof.
  intros HvC Hsize Hw. unfold linked_verts.
  destruct (small_core deep v {[v]} ∅) as [Hall|Hcl];
    [set_solver|set_solver|set_solver|set_solver|done|rewrite size_empty; lia| |].
  - apply Hall. clear Hall. induction Hw; [done|]. by eapply HC.
  - induction Hw as [|w x Hw IH Hadj Hx]; [apply linked_verts_seed|].
    apply (Hcl w); [|done|done].
    destruct (decide (w = v)) as [->|Hne]; [by left|right].
    split; [exact IH|set_solver].
Qed.

End Small.
End Found.

(** X1: every vertex returned by the search is the start or a selected
    vertex, and is joined to the start by a path of at most [deep] edges
    whose further points are all selected. *)
Theorem X1_linked_verts_within_reach (h : Host) (Hok : HostOk h) bm v deep w :
  w ∈ linked_verts bm v deep ->
  (w = v \/ vert_select bm w = true) /\
  exists n, n <= deep /\ sel_path bm v w n.
Proof.
  intros Hw. split.
  - by apply sel_linked_selected, (linked_verts_sound Hok bm v deep).
  - by apply (linked_verts_within Hok).
Qed.

Lemma X1_within_reach_witness :
  4 ∈ linked_verts (h:=first_host) lantern 0 3 /\
  (4 = 0 \/ vert_select lantern 4 = true) /\
  exists n, n <= 3 /\ sel_path lantern 0 4 n.
Proof.
  assert (4 ∈ linked_verts (h:=first_host) lantern 0 3) as H by compute_done.
  split; [exact H|].
  exact (X1_linked_verts_within_reach first_host first_host_ok lantern 0 3 4 H).
Defined.

(** X2: the search never drops a vertex it was given, it always returns
    the start, and with a positive depth it returns every selected
    neighbour of the start, whatever the order in which sets are visited. *)
Theorem X2_linked_verts_keeps_given (h : Host) bm v deep (vs : gset nat) :
  vs ⊆ _linked_verts bm v deep vs /\
  v ∈ linked_verts bm v deep /\
  forall w, adjacent bm v w -> vert_select bm w = true ->
    w ∈ _linked_verts bm v (S deep) vs.
Proof.
  split_and!.
  - apply _linked_verts_grows.
  - apply linked_verts_seed.
  - intros w. apply _linked_verts_neighbour.
Qed.

(** X3: with a depth of 2 or more the search returns every vertex that is
    at most two selected edges away from the start; the losses of the
    shared visited set begin at three edges. *)
Theorem X3_linked_verts_two_edges (h : Host) (Hok : HostOk h) bm v deep w n :
  sel_path bm v w n -> n <= 2 -> 2 <= deep -> w ∈ linked_verts bm v deep.
Proof.
  intros Hp Hn Hd. destruct deep as [|[|deep]]; [lia|lia|].
  by apply (linked_verts_two_edges Hok bm v deep w n).
Qed.

Lemma lantern_path_0_3 : sel_path lantern 0 3 2.
Proof.
  apply (sel_path_step _ _ 1 3 1); [|left; compute_done|done].
  apply (sel_path_step _ _ 0 1 0); [constructor|left; compute_done|done].
Qed.

Lemma X3_two_edges_witness : 3 ∈ linked_verts (h:=first_host) lantern 0 3.
Proof.
  apply (X3_linked_verts_two_edges first_host first_host_ok lantern 0 3 3 2).
  - exact lantern_path_0_3.
  - lia.
  - lia.
Defined.

(** X4: when the start lies in a set of at most [deep + 1] vertices that
    holds every selected neighbour of its members, the search returns
    exactly the cluster of the start: the vertices joined to it through
    selected points. *)
Theorem X4_linked_verts_small_cluster (h : Host) (Hok : HostOk h) bm (C : gset nat) v deep :
  (forall u w, u ∈ C -> adjacent bm u w -> vert_select bm w = true -> w ∈ C) ->
  v ∈ C ->
  size C <= S deep ->
  forall w, w ∈ linked_verts bm v deep <-> sel_linked bm v w.
Proof.
  intros HC Hv Hsize w. split.
  - apply (linked_verts_sound Hok).
  - by apply (small_cluster_complete Hok bm C HC).
Qed.

Lemma stub_closed a u w :
  u ∈ ({[0; 1]} : gset nat) -> adjacent (stub a) u w ->
  vert_select (stub a) w = true -> w ∈ ({[0; 1]} : gset nat).
Proof. intros _ _ Hw. destruct w as [|[|[|w]]]; [set_solver|set_solver|done|done]. Qed.

Lemma X4_small_cluster_witness :
  1 ∈ linked_verts (h:=first_host) (stub None) 0 1 <-> sel_linked (stub None) 0 1.
Proof.
  apply (X4_linked_verts_small_cluster first_host first_host_ok (stub None) {[0; 1]} 0 1).
  - apply stub_closed.
  - set_solver.
  - vm_compute. lia.
Defined.

(** ** Boundary pruning: what the pass guarantees *)

Section PruneMore.
Context {h : Host} (Hok : HostOk h).

Lemma foldl_prune_step_shrinks l : forall bm x,
  vert_select (foldl prune_step bm l) x = true -> vert_select bm x = true.
Proof using Type.
  clear Hok. induction l as [|v l IH]; intros bm x Hx; simpl in *; [done|].
  by apply (prune_step_shrinks bm v), IH.
Qed.

Lemma foldl_prune_step_edges l bm : edges (foldl prune_step bm l) = edges bm.
Proof using Type. clear Hok. by destruct (foldl_prune_step_frame l bm) as (-> & _). Qed.

Lemma boundary_prune_select bm x :
  vert_select (boundary_prune bm) x
  = vert_select (foldl prune_step bm (seq 0 (length (verts bm)))) x.
Proof. unfold boundary_prune, vert_select. by rewrite (flush_verts h Hok). Qed.

Lemma seq_split_at b n :
  b < n -> seq 0 n = seq 0 b ++ [b] ++ seq (S b) (n - S b).
Proof using Type.
  clear Hok. intros Hb. replace n with (b + (1 + (n - S b))) at 1 by lia.
  rewrite seq_app, seq_app. simpl. do 3 f_equal. lia.
Qed.

Lemma vert_select_lt bm v : vert_select bm v = true -> v < length (verts bm).
Proof using Type.
  clear Hok. unfold vert_select. intros Hv.
  destruct (verts bm !! v) eqn:E; [|done]. by apply lookup_lt_Some in E.
Qed.

(** a boundary vertex that is still selected after the pass has had its
    turn, which deselected its selected neighbours *)
Lemma prune_survivor_isolated bm b w :
  vert_select (boundary_prune bm) b = true ->
  is_boundary bm b ->
  adjacent bm b w -> w <> b ->
  vert_select (boundary_prune bm) w = false.
Proof.
  rewrite !boundary_prune_select. intros Hb Hdeg Hadj Hne.
  assert (b < length (verts bm)) as Hlt
    by by apply vert_select_lt, (foldl_prune_step_shrinks _ _ _ Hb).
  rewrite (seq_split_at b) in Hb |- * by done.
  rewrite !foldl_app in Hb |- *. simpl in Hb |- *.
  set (bmA := foldl prune_step bm (seq 0 b)) in *.
  apply foldl_prune_step_shrinks in Hb.
  destruct (vert_select (foldl prune_step (prune_step bmA b) _) w) eqn:Hw; [|done].
  apply foldl_prune_step_shrinks in Hw. exfalso.
  assert (edges bmA = edges bm) as He by apply foldl_prune_step_edges.
  assert (vert_select bmA b = true) as HbA by by apply (prune_step_shrinks bmA b).
  unfold prune_step in Hw. rewrite HbA in Hw.
  replace (length (link_edges bmA b)) with 1 in Hw
    by (unfold is_boundary, link_edges in *; by rewrite He).
  simpl in Hw. rewrite vert_select_deselect in Hw.
  apply andb_prop in Hw as [HwA Hw].
  apply negb_true_iff, bool_decide_eq_false in Hw. apply Hw.
  apply elem_of_difference. split; [|set_solver].
  apply linked_verts_neighbour; [|done]. unfold adjacent in *. by rewrite He.
Qed.

(** the pass leaves alone a vertex whose cluster has no boundary point *)
Lemma prune_no_boundary bm0 v l :
  (forall w, sel_linked bm0 v w -> ~ is_boundary bm0 w) ->
  forall bm1,
    edges bm1 = edges bm0 ->
    (forall x, vert_select bm1 x = true -> vert_select bm0 x = true) ->
    vert_select (foldl prune_step bm1 l) v = vert_select bm1 v.
Proof.
  intros Hnb. induction l as [|i l IH]; intros bm1 He Hs; simpl; [done|].
  rewrite IH.
  - unfold prune_step.
    destruct (vert_select bm1 i && (length (link_edges bm1 i) =? 1)) eqn:Hc; [|done].
    apply andb_prop in Hc as [Hi Hdeg]. apply Nat.eqb_eq in Hdeg.
    rewrite vert_select_deselect.
    case_bool_decide as Hin; [|by rewrite andb_true_r]. exfalso.
    apply elem_of_difference in Hin as [Hin _].
    apply (linked_verts_sound Hok) in Hin.
    apply (sel_linked_mono bm0) in Hin; [|done|done].
    apply sel_linked_sym in Hin; [|by apply Hs].
    apply (Hnb i Hin). unfold is_boundary, link_edges in *. by rewrite <- He.
  - by rewrite prune_step_edges.
  - intros x Hx. by apply Hs, (prune_step_shrinks _ i).
Qed.

(** a second pass finds nothing to deselect *)
Lemma prune_again_step bm i :
  prune_step (boundary_prune bm) i = boundary_prune bm.
Proof.
  unfold prune_step at 1.
  destruct (vert_select (boundary_prune bm) i && _) eqn:Hc; [|done].
  apply andb_prop in Hc as [Hi Hdeg]. apply Nat.eqb_eq in Hdeg.
  destruct (boundary_prune_frame Hok bm) as (He & _ & _).
  assert (is_boundary bm i) as Hb
    by (unfold is_boundary, link_edges in *; by rewrite <- He).
  replace (linked_verts (boundary_prune bm) i _linked_verts_recursive_deep ∖ {[i]})
    with (∅ : gset nat); [apply deselect_empty|].
  symmetry. apply set_eq. intros w. split; [|set_solver].
  intros [Hw Hne]%elem_of_difference. exfalso. apply Hne, elem_of_singleton.
  apply (linked_verts_sound Hok) in Hw. clear Hne.
  induction Hw as [|w x Hw IH Hadj Hx]; [done|]. subst w.
  destruct (decide (x = i)) as [->|Hxi]; [done|].
  rewrite (prune_survivor_isolated bm i x) in Hx; [done|done|done| |done].
  unfold adjacent in *. by rewrite <- He.
Qed.

Lemma prune_again bm :
  verts (boundary_prune (boundary_prune bm)) = verts (boundary_prune bm).
Proof.
  unfold boundary_prune at 1. rewrite (flush_verts h Hok).
  generalize (seq 0 (length (verts (boundary_prune bm)))).
  intros l. induction l as [|i l IH]; simpl; [done|].
  by rewrite prune_again_step.
Qed.

End PruneMore.

(** X5: the pruning pass only deselects: it selects no vertex and changes
    no edge, face or coordinate. *)
Theorem X5_prune_only_deselects (h : Host) (Hok : HostOk h) bm :
  edges (boundary_prune bm) = edges bm /\
  faces (boundary_prune bm) = faces bm /\
  co <$> verts (boundary_prune bm) = co <$> verts bm /\
  forall v, vert_select (boundary_prune bm) v = true -> vert_select bm v = true.
Proof.
  destruct (boundary_prune_frame Hok bm) as (He & Hf & Hc). split_and!; try done.
  intros v. rewrite (boundary_prune_select Hok). apply foldl_prune_step_shrinks.
Qed.

Lemma X5_only_deselects_witness :
  edges (boundary_prune (h:=first_host) chain) = edges chain /\
  faces (boundary_prune (h:=first_host) chain) = faces chain /\
  co <$> verts (boundary_prune (h:=first_host) chain) = co <$> verts chain /\
  forall v, vert_select (boundary_prune (h:=first_host) chain) v = true ->
            vert_select chain v = true.
Proof. apply (X5_prune_only_deselects first_host first_host_ok chain). Defined.

(** X6: a vertex with exactly one edge that is still selected after the
    pruning pass has no selected neighbour left. *)
Theorem X6_prune_survivor_isolated (h : Host) (Hok : HostOk h) bm b w :
  vert_select (boundary_prune bm) b = true ->
  is_boundary bm b ->
  adjacent bm b w -> w <> b ->
  vert_select (boundary_prune bm) w = false.
Proof. apply (prune_survivor_isolated Hok). Qed.

Lemma X6_survivor_witness :
  vert_select (boundary_prune (h:=first_host) (stub None)) 1 = false.
Proof.
  apply (X6_prune_survivor_isolated first_host first_host_ok (stub None) 0 1).
  - reflexivity.
  - reflexivity.
  - left. apply list_elem_of_here.
  - lia.
Defined.

(** X7: the pruning pass leaves the selection of a vertex as it is when no
    vertex of its cluster has exactly one edge. *)
Theorem X7_prune_spares_cluster_without_boundary (h : Host) (Hok : HostOk h) bm v :
  (forall w, sel_linked bm v w -> ~ is_boundary bm w) ->
  vert_select (boundary_prune bm) v = vert_select bm v.
Proof.
  intros Hnb. rewrite (boundary_prune_select Hok).
  by apply (prune_no_boundary Hok bm v).
Qed.

Lemma square_no_boundary w : ~ is_boundary square w.
Proof. unfold is_boundary. simpl. lia. Qed.

Lemma X7_spares_witness :
  vert_select (boundary_prune (h:=first_host) square) 0 = vert_select square 0.
Proof.
  apply (X7_prune_spares_cluster_without_boundary first_host first_host_ok square 0).
  intros w _. apply square_no_boundary.
Defined.

(** X8: pruning a second time deselects nothing more. *)
Theorem X8_prune_twice (h : Host) (Hok : HostOk h) bm :
  verts (boundary_prune (boundary_prune bm)) = verts (boundary_prune bm).
Proof. apply (prune_again Hok). Qed.

Lemma X8_prune_twice_witness :
  verts (boundary_prune (h:=first_host) (boundary_prune (h:=first_host) chain))
  = verts (boundary_prune (h:=first_host) chain).
Proof. apply (X8_prune_twice first_host first_host_ok chain). Defined.

(** X9: in a cluster of at most eleven selected points whose only boundary
    point is [b], the pruning pass leaves exactly [b] selected. *)
Theorem X9_prune_small_cluster (h : Host) (Hok : HostOk h) bm (C : gset nat) b :
  (forall u w, u ∈ C -> adjacent bm u w -> vert_select bm w = true -> w ∈ C) ->
  b ∈ C ->
  size C <= S _linked_verts_recursive_deep ->
  vert_select bm b = true ->
  is_boundary bm b ->
  (forall w, sel_linked bm b w -> is_boundary bm w -> w = b) ->
  forall w, sel_linked bm b w ->
    (vert_select (boundary_prune bm) w = true <-> w = b).
Proof.
  intros HC HbC Hsize Hb Hdeg Huniq w Hw.
  rewrite (prune_cluster Hok bm b Hb Huniq w Hdeg Hw).
  pose proof (small_cluster_complete Hok bm C HC b _ w HbC Hsize Hw). tauto.
Qed.

Lemma stub_unique_boundary a w :
  sel_linked (stub a) 0 w -> is_boundary (stub a) w -> w = 0.
Proof.
  intros [->| ->]%stub_cluster Hdeg; [done|]. vm_compute in Hdeg. discriminate.
Qed.

Lemma stub_linked_1 a : sel_linked (stub a) 0 1.
Proof.
  eapply sel_linked_step; [constructor| |done]. left. apply list_elem_of_here.
Qed.

Lemma X9_small_cluster_witness :
  vert_select (boundary_prune (h:=first_host) (stub None)) 1 = true <-> 1 = 0.
Proof.
  apply (X9_prune_small_cluster first_host first_host_ok (stub None) {[0; 1]} 0).
  - apply stub_closed.
  - set_solver.
  - vm_compute. lia.
  - reflexivity.
  - reflexivity.
  - apply stub_unique_boundary.
  - apply stub_linked_1.
Defined.

(** C5, amended: with boundary priority, when the connected cluster of
    selected points around the boundary point [b] has at most eleven
    points (the depth ceiling of ten, and [b] itself) and [b] is its only
    boundary point, the pruning pass leaves exactly one point of the
    cluster selected, and that point is [b]. *)
Theorem C5_prune_cluster_within_ceiling (h : Host) (Hok : HostOk h)
  bm (cluster : gset nat) b :
  vert_select bm b = true ->
  is_boundary bm b ->
  (forall w, w ∈ cluster <-> sel_linked bm b w) ->
  size cluster <= S _linked_verts_recursive_deep ->
  (forall w, w ∈ cluster -> is_boundary bm w -> w = b) ->
  forall w, w ∈ cluster ->
    (vert_select (boundary_prune bm) w = true <-> w = b).
Proof.
  intros Hb Hdeg Hcl Hsize Huniq w Hw.
  assert (forall u x, u ∈ cluster -> adjacent bm u x -> vert_select bm x = true ->
                      x ∈ cluster) as HC.
  { intros u x Hu Hadj Hx. apply Hcl. eapply sel_linked_step; [by apply Hcl|done|done]. }
  assert (b ∈ cluster) as HbC by (apply Hcl; constructor).
  apply Hcl in Hw.
  rewrite (prune_cluster Hok bm b Hb (fun x Hx => Huniq x (proj2 (Hcl x) Hx)) w Hdeg Hw).
  pose proof (small_cluster_complete Hok bm cluster HC b _ w HbC Hsize Hw). tauto.
Qed.

Lemma C5_within_ceiling_witness :
  (vert_select (boundary_prune (h:=first_host) (stub None)) 0 = true <-> 0 = 0) /\
  (vert_select (boundary_prune (h:=first_host) (stub None)) 1 = true <-> 1 = 0).
Proof.
  assert (forall w, w ∈ ({[0; 1]} : gset nat) <-> sel_linked (stub None) 0 w) as Hcl.
  { intros w. split.
    - intros [->%elem_of_singleton| ->%elem_of_singleton]%elem_of_union;
        [constructor|apply stub_linked_1].
    - intros [->| ->]%stub_cluster; set_solver. }
  split.
  - apply (C5_prune_cluster_within_ceiling first_host first_host_ok (stub None) {[0; 1]} 0).
    + reflexivity.
    + reflexivity.
    + exact Hcl.
    + vm_compute. lia.
    + intros w Hw. apply stub_unique_boundary. by apply Hcl.
    + set_solver.
  - apply (C5_prune_cluster_within_ceiling first_host first_host_ok (stub None) {[0; 1]} 0).
    + reflexivity.
    + reflexivity.
    + exact Hcl.
    + vm_compute. lia.
    + intros w Hw. apply stub_unique_boundary. by apply Hcl.
    + set_solver.
Defined.

(** ** The loop builder: the shape of a run *)

Section Shape.
Context {h : Host}.

Lemma loop_body_shape bm kd c st st' it :
  loop_body bm kd c st = Ok (st', it) ->
  it_loop it = loop st /\
  current_vertex st' = it_next it /\
  _i st' = S (_i st) /\
  match it_next it with
  | Some v => v <> 0 /\ loop st' = loop st ++ [v]
  | None => loop st' = loop st
  end.
Proof.
  unfold loop_body. intros H.
  destruct (kd_find _ _ _) as [[|n]|]; simpl in H; [by simplify_eq/=| |by simplify_eq/=].
  unfold verts_getitem in H. destruct (S n <? _); simpl in H; [|done].
  destruct (list_remove (S n) _) as [sel'| |]; simpl in H; [|done|done].
  by simplify_eq/=.
Qed.

Lemma while_loop_shape fuel : forall bm kd _l st st' ex its,
  while_loop fuel bm kd _l st = Ok (st', ex, its) ->
  loop st' = loop st ++ omap it_next its /\
  0 ∉ omap it_next its /\
  _i st' = _i st + length its /\
  (ex = ExitDone -> current_vertex st <> None ->
   length (omap it_next its) < length its /\ _i st' <= _l).
Proof.
  induction fuel as [|fuel IH]; intros bm kd _l st st' ex its H; simpl in H.
  - destruct (current_vertex st); simplify_eq/=.
    rewrite app_nil_r. split_and!; [done|apply not_elem_of_nil|lia|done].
  - destruct (current_vertex st) as [c|] eqn:Hc; simplify_eq/=;
      [|rewrite app_nil_r; split_and!; [done|apply not_elem_of_nil|lia|done]].
    destruct (loop_body bm kd c st) as [[st1 it1]| |] eqn:Hb; simplify_eq/=.
    apply loop_body_shape in Hb as (_ & Hcur & Hi & Hnext).
    assert (loop st1 = loop st ++ omap it_next [it1] /\ 0 ∉ omap it_next [it1]) as [Hl1 H01].
    { simpl. destruct (it_next it1) as [v|]; simpl.
      - destruct Hnext as [Hv ->]. split; [done|]. set_solver.
      - rewrite Hnext, app_nil_r. split; [done|apply not_elem_of_nil]. }
    destruct (Nat.ltb_spec _l (_i st1)) as [Hlt|Hge].
    + simplify_eq/=. split_and!; [done|done|lia|done].
    + destruct (while_loop fuel bm kd _l st1) as [[[st2 ex2] its2]| |] eqn:Hw; simplify_eq/=.
      pose proof (IH _ _ _ _ _ _ _ Hw) as (Hl2 & H02 & Hi2 & Hdone).
      split_and!.
      * rewrite Hl2, Hl1. simpl. destruct (it_next it1); simpl; by rewrite <- ?app_assoc.
      * simpl in H01 |- *. destruct (it_next it1); set_solver.
      * lia.
      * intros -> _. destruct (current_vertex st1) as [c1|] eqn:Hc1.
        -- destruct (Hdone eq_refl ltac:(done)) as [Hlen Hi3].
           split; [|done]. simpl. destruct (it_next it1); simpl; lia.
        -- rewrite <- Hcur. simpl.
           destruct fuel; simpl in Hw; rewrite Hc1 in Hw; simplify_eq/=; lia.
Qed.

End Shape.

(** X10: vertex 0 never enters the loop after the seed: whatever
    [kd.find] answers, the vertices appended have a non-zero index. *)
Theorem X10_vertex_zero_never_appended (h : Host) bm a st ex its :
  loop_builder bm a = Ok (st, ex, its) ->
  exists tl, loop st = a :: tl /\ 0 ∉ tl.
Proof.
  unfold loop_builder. intros H.
  destruct (list_remove a (selected_list bm)) as [sel| |]; [|done|done].
  apply while_loop_shape in H as (Hl & H0 & _).
  simpl in Hl. by exists (omap it_next its).
Qed.

Lemma square_first_run :
  loop_builder (h:=first_host) square 0 = Ok (square_final, ExitOverflow, square_log).
Proof. vm_compute. reflexivity. Qed.

Lemma X10_vertex_zero_witness :
  exists tl, loop square_final = 0 :: tl /\ 0 ∉ tl.
Proof.
  apply (X10_vertex_zero_never_appended first_host square 0 square_final
           ExitOverflow square_log square_first_run).
Defined.

(** X11: when the [while] loop is left because no next vertex was found,
    and not through the alarm branch, some selected vertex other than the
    seed is not in the loop.  A run that takes in every selected vertex
    therefore always ends in the alarm branch. *)
Theorem X11_normal_exit_leaves_candidates (h : Host) bm a st its :
  loop_builder bm a = Ok (st, ExitDone, its) ->
  length (loop st) < length (selected_list bm).
Proof.
  unfold loop_builder. intros H.
  destruct (list_remove a (selected_list bm)) as [sel| |] eqn:Hr; [|done|done].
  apply list_remove_ok in Hr as (_ & _ & Hlen & _).
  apply while_loop_shape in H as (Hl & _ & Hi & Hdone).
  destruct (Hdone eq_refl ltac:(done)) as [Hlt Hle].
  apply (f_equal length) in Hl. rewrite length_app in Hl. simpl in *. lia.
Qed.

Lemma X11_normal_exit_witness :
  length [1] < length (selected_list index_zero_pair).
Proof.
  apply (X11_normal_exit_leaves_candidates first_host index_zero_pair 1
     {| loop := [1]; selected_vertices := [0]; current_vertex := None; _i := 1 |}
     [{| it_loop := [1]; it_candidates := [0]; it_found := Some 0; it_next := None |}]).
  vm_compute. reflexivity.
Defined.

(** ** The loop builder: each hop *)

Section Hop.
Context {h : Host} (Hok : HostOk h).

Lemma consec_free_snoc bm lp c v :
  consec_free bm lp -> last lp = Some c -> ~ adjacent bm c v ->
  consec_free bm (lp ++ [v]).
Proof using Type.
  clear Hok. intros Hfree Hlast Hadj i x y Hx Hy.
  destruct (decide (S i < length lp)) as [Hlt|Hge].
  - rewrite lookup_app_l in Hx, Hy by lia. by apply (Hfree i).
  - assert (S i = length lp) as Hi.
    { apply lookup_lt_Some in Hy. rewrite length_app in Hy. simpl in Hy. lia. }
    rewrite lookup_app_l in Hx by lia.
    rewrite lookup_app_r, Hi, Nat.sub_diag in Hy by lia. simpl in Hy.
    rewrite last_lookup, <- Hi in Hlast. simpl in Hlast. by simplify_eq.
Qed.

Lemma small_kd_entries bm :
  small_selection bm ->
  Forall (fun e => small (fst e)) (kd_entries bm (selected_list bm)).
Proof using Type.
  clear Hok. intros H. unfold kd_entries. apply Forall_fmap.
  eapply Forall_impl; [exact H|]. by intros v Hv.
Qed.

Lemma loop_body_hop bm c st st' it :
  selected_vertices st ⊆ selected_list bm ->
  c ∈ selected_list bm ->
  last (loop st) = Some c ->
  loop_body bm (kd_entries bm (selected_list bm)) c st = Ok (st', it) ->
  hop_ok bm it /\ selected_vertices st' ⊆ selected_list bm /\
  (forall v, it_next it = Some v -> v ∈ selected_list bm /\ ~ adjacent bm c v).
Proof.
  intros Hsel Hcs Hlast H.
  pose proof (loop_body_spec Hok _ _ _ _ _ _ H) as (Hl & Hc & Hs & _ & _).
  unfold loop_body in H.
  set (sel := set_iter _) in *.
  assert (forall v, v ∈ sel -> vert_select bm v = true /\ ~ adjacent bm c v /\
            v ∉ linked_verts bm c _linked_verts_recursive_deep) as Hcand.
  { intros v [Hv Hnl]%(set_iter_elem h Hok)%elem_of_difference.
    apply elem_of_list_to_set, Hsel, selected_list_elem in Hv.
    split_and!; [done| |done]. intros Hadj. apply Hnl.
    by apply linked_verts_neighbour. }
  destruct (kd_find _ _ _) as [[|n]|] eqn:Hfind; simpl in H.
  - simplify_eq/=. split_and!; [by intros v ?|set_solver|by intros v ?].
  - unfold verts_getitem in H. destruct (S n <? _); simpl in H; [|done].
    destruct (list_remove (S n) sel) as [sel'| |] eqn:Hr; simpl in H; [|done|done].
    simplify_eq/=.
    apply (kd_find_some h Hok) in Hfind as (Hflt & cv & Hin & Hmin).
    apply andb_prop in Hflt as [_ Hv%bool_decide_eq_true].
    destruct (Hcand _ Hv) as (Hsv & Hnadj & Hnl).
    apply list_remove_ok in Hr as (_ & Hsub & _).
    split_and!; [|set_solver|intros v [= <-]; split; [by apply selected_list_elem|done]].
    intros v [= <-]. exists c. split_and!; try done; [set_solver|].
    intros Hsmall j Hj Hjl.
    apply list_elem_of_fmap in Hin as (v' & [= -> <-] & _).
    apply (Hmin (proj1 (Forall_forall _ _) Hsmall c Hcs) (small_kd_entries bm Hsmall)
             (vert_co bm j) j).
    + apply list_elem_of_fmap. exists j. split; [done|].
      apply selected_list_elem. by apply Hcand.
    + unfold flt. rewrite bool_decide_eq_false_2, bool_decide_eq_true_2 by done. done.
  - simplify_eq/=. split_and!; [by intros v ?|set_solver|by intros v ?].
Qed.

Lemma while_loop_hops fuel : forall bm _l st st' ex its,
  selected_vertices st ⊆ selected_list bm ->
  (forall c, current_vertex st = Some c ->
     c ∈ selected_list bm /\ last (loop st) = Some c) ->
  consec_free bm (loop st) ->
  while_loop fuel bm (kd_entries bm (selected_list bm)) _l st = Ok (st', ex, its) ->
  Forall (hop_ok bm) its /\ consec_free bm (loop st').
Proof.
  induction fuel as [|fuel IH]; intros bm _l st st' ex its Hsel Htip Hfree H; simpl in H.
  - destruct (current_vertex st); simplify_eq/=. by split.
  - destruct (current_vertex st) as [c|] eqn:Hc; simplify_eq/=; [|by split].
    destruct (Htip c eq_refl) as [Hcs Hlast].
    destruct (loop_body bm _ c st) as [[st1 it1]| |] eqn:Hb; simplify_eq/=.
    pose proof (loop_body_shape _ _ _ _ _ _ Hb) as (_ & Hcur & _ & Hnext).
    apply loop_body_hop in Hb as (Hhop & Hsel1 & Hnadj); [|done|done|done].
    assert (consec_free bm (loop st1) /\
            forall c1, current_vertex st1 = Some c1 ->
              c1 ∈ selected_list bm /\ last (loop st1) = Some c1)
      as [Hfree1 Htip1].
    { rewrite Hcur. destruct (it_next it1) as [v|].
      - destruct Hnext as [_ ->]. destruct (Hnadj v eq_refl) as [Hvs Hva]. split.
        + by apply (consec_free_snoc bm _ c).
        + intros c1 [= <-]. split; [done|]. apply last_snoc.
      - rewrite Hnext. by split. }
    destruct (_l <? _i st1).
    + simplify_eq/=. split; [by constructor|done].
    + destruct (while_loop fuel bm _ _l st1) as [[[st2 ex2] its2]| |] eqn:Hw; simplify_eq/=.
      apply IH in Hw as [Hall Hfree2]; [|done|done|done].
      split; [by constructor|done].
Qed.

Lemma loop_builder_hops bm a st ex its :
  loop_builder bm a = Ok (st, ex, its) ->
  Forall (hop_ok bm) its /\ consec_free bm (loop st).
Proof.
  unfold loop_builder. intros H.
  destruct (list_remove a (selected_list bm)) as [sel| |] eqn:Hr; [|done|done].
  apply list_remove_ok in Hr as (Ha & Hsub & _).
  refine (while_loop_hops _ _ _ _ _ _ _ _ _ _ H); simpl.
  - done.
  - by intros c [= <-].
  - intros [|i] x y Hx Hy; simplify_eq/=.
Qed.

End Hop.

(** X12: the loop is a nearest-neighbour walk.  When every selected vertex
    has [small] coordinates (integers of magnitude at most 1024, on which
    the host compares distances exactly), in each turn that appends a
    vertex the tip is the last point of the loop, and no candidate outside
    the loop is nearer to the tip than the vertex appended. *)
Theorem X12_hop_to_a_nearest_candidate (h : Host) (Hok : HostOk h) bm a st ex its :
  small_selection bm ->
  loop_builder bm a = Ok (st, ex, its) ->
  Forall (fun it => forall v, it_next it = Some v ->
            exists t, last (it_loop it) = Some t /\
              forall j, j ∈ it_candidates it -> j ∉ it_loop it ->
                (dist2 (vert_co bm t) (vert_co bm v)
                 <= dist2 (vert_co bm t) (vert_co bm j))%Z) its.
Proof.
  intros Hsmall H. apply (loop_builder_hops Hok) in H as [Hall _].
  eapply Forall_impl; [exact Hall|]. intros it Hit v Hv.
  destruct (Hit v Hv) as (t & Ht & _ & _ & _ & _ & Hmin). eauto.
Qed.

Lemma X12_nearest_witness :
  small_selection square /\
  Forall (fun it => forall v, it_next it = Some v ->
            exists t, last (it_loop it) = Some t /\
              forall j, j ∈ it_candidates it -> j ∉ it_loop it ->
                (dist2 (vert_co square t) (vert_co square v)
                 <= dist2 (vert_co square t) (vert_co square j))%Z) square_log.
Proof.
  assert (small_selection square) as Hs.
  { repeat constructor; simpl; lia. }
  split; [exact Hs|].
  apply (X12_hop_to_a_nearest_candidate first_host first_host_ok square 0
           square_final ExitOverflow square_log Hs square_first_run).
Defined.

(** ** The loop builder: points of the loop are never linked *)

Section Apart.
Context {h : Host} (Hok : HostOk h).

Lemma loop_apart_snoc bm lp v :
  loop_apart bm lp ->
  (forall x, x ∈ lp ->
     v ∉ linked_verts bm x _linked_verts_recursive_deep /\ ~ adjacent bm x v) ->
  loop_apart bm (lp ++ [v]).
Proof using Type.
  clear Hok. intros Hap Hv i j x y Hij Hx Hy.
  assert (j < length (lp ++ [v])) as Hj by by eapply lookup_lt_Some.
  rewrite length_app in Hj. simpl in Hj.
  rewrite lookup_app_l in Hx by lia.
  destruct (decide (j < length lp)) as [Hlt|Hge].
  - rewrite lookup_app_l in Hy by lia. by apply (Hap i j).
  - rewrite lookup_app_r in Hy by lia.
    replace (j - length lp) with 0 in Hy by lia. simpl in Hy. simplify_eq.
    apply Hv. by eapply list_elem_of_lookup_2.
Qed.

Lemma loop_body_apart bm kd c st st' it :
  selected_vertices st ⊆ selected_list bm ->
  candidates_clear bm st ->
  loop_apart bm (loop st) ->
  current_vertex st = Some c ->
  loop_body bm kd c st = Ok (st', it) ->
  selected_vertices st' ⊆ selected_list bm /\
  candidates_clear bm st' /\
  loop_apart bm (loop st').
Proof.
  intros Hsel Hclear Hap Hc H. unfold loop_body in H.
  set (sel := set_iter _) in *.
  assert (forall y, y ∈ sel -> vert_select bm y = true /\
            forall x, x ∈ loop st ->
              y ∉ linked_verts bm x _linked_verts_recursive_deep) as HB.
  { intros y [Hy Hnl]%(set_iter_elem h Hok)%elem_of_difference.
    apply elem_of_list_to_set in Hy. split; [by apply selected_list_elem, Hsel|].
    intros x Hx. destruct (decide (x = c)) as [->|Hne]; [done|].
    apply (Hclear x y); [done|congruence|done]. }
  assert (sel ⊆ selected_list bm) as Hsub
    by (intros y Hy; by apply selected_list_elem, HB).
  destruct (kd_find _ _ _) as [[|n]|] eqn:Hfind; simpl in H.
  - simplify_eq/=. split_and!; [done| |done]. intros x y Hx _ Hy. by apply HB.
  - unfold verts_getitem in H. destruct (S n <? _); simpl in H; [|done].
    destruct (list_remove (S n) sel) as [sel'| |] eqn:Hr; simpl in H; [|done|done].
    simplify_eq/=.
    apply (kd_find_some h Hok) in Hfind as (Hflt & _).
    apply andb_prop in Hflt as [_ Hv%bool_decide_eq_true].
    apply list_remove_ok in Hr as (_ & Hsub' & _).
    split_and!; [set_solver| |].
    + intros x y [Hx|Hx]%elem_of_app Hne Hy.
      * apply HB; [by apply Hsub'|done].
      * apply list_elem_of_singleton in Hx as ->. simpl in Hne. done.
    + apply loop_apart_snoc; [done|]. intros x Hx.
      destruct (HB _ Hv) as [Hsv Hnl]. split; [by apply Hnl|].
      intros Hadj. apply (Hnl x Hx). by apply linked_verts_neighbour.
  - simplify_eq/=. split_and!; [done| |done]. intros x y Hx _ Hy. by apply HB.
Qed.

Lemma while_loop_apart fuel : forall bm kd _l st st' ex its,
  selected_vertices st ⊆ selected_list bm ->
  candidates_clear bm st ->
  loop_apart bm (loop st) ->
  while_loop fuel bm kd _l st = Ok (st', ex, its) ->
  loop_apart bm (loop st').
Proof.
  induction fuel as [|fuel IH]; intros bm kd _l st st' ex its Hsel Hclear Hap H;
    simpl in H.
  - destruct (current_vertex st); by simplify_eq/=.
  - destruct (current_vertex st) as [c|] eqn:Hc; simplify_eq/=; [|done].
    destruct (loop_body bm kd c st) as [[st1 it1]| |] eqn:Hb; simplify_eq/=.
    apply loop_body_apart in Hb as (Hsel1 & Hclear1 & Hap1); [|done|done|done|done].
    destruct (_l <? _i st1); [by simplify_eq/=|].
    destruct (while_loop fuel bm kd _l st1) as [[[st2 ex2] its2]| |] eqn:Hw; simplify_eq/=.
    by apply IH in Hw.
Qed.

End Apart.

(** X13: the loop never takes in a vertex linked to a point already in it.
    For two points of the loop, the later one is outside the vertices that
    [_linked_verts] returns from the earlier one, and no edge of the mesh
    joins them. *)
Theorem X13_loop_points_apart (h : Host) (Hok : HostOk h) bm a st ex its :
  loop_builder bm a = Ok (st, ex, its) -> loop_apart bm (loop st).
Proof.
  unfold loop_builder. intros H.
  destruct (list_remove a (selected_list bm)) as [sel| |] eqn:Hr; [|done|done].
  apply list_remove_ok in Hr as (_ & Hsub & _).
  refine (while_loop_apart Hok _ _ _ _ _ _ _ _ _ _ _ H); simpl.
  - done.
  - intros x y Hx Hne. apply list_elem_of_singleton in Hx as ->. done.
  - intros i j x y Hij Hx Hy. apply lookup_lt_Some in Hy. simpl in Hy. lia.
Qed.

Lemma fence_run :
  loop_builder (h:=first_host) fence 0 = Ok (fence_final, ExitDone, fence_log).
Proof. vm_compute. reflexivity. Qed.

Lemma X13_loop_apart_witness :
  2 ∉ linked_verts (h:=first_host) fence 0 _linked_verts_recursive_deep /\
  ~ adjacent fence 0 2.
Proof.
  apply (X13_loop_points_apart first_host first_host_ok fence 0 fence_final
           ExitDone fence_log fence_run 0 1 0 2).
  - lia.
  - reflexivity.
  - reflexivity.
Defined.

(** ** The whole run on a mesh without faces *)

Section FaceFree.
Context {h : Host} (Hok : HostOk h).

Lemma has_edge_adjacent bm a b : has_edge bm a b = true <-> adjacent bm a b.
Proof using Type.
  clear Hok. unfold has_edge, adjacent. rewrite existsb_exists. split.
  - intros ([x y] & Hin%list_elem_of_In & He). simpl in He.
    apply orb_prop in He as [He|He]; apply andb_prop in He as [H1 H2];
      apply Nat.eqb_eq in H1, H2; subst; auto.
  - intros [Hin|Hin]; [exists (a, b)|exists (b, a)];
      (split; [by apply list_elem_of_In|]); simpl; rewrite !Nat.eqb_refl; simpl;
      by rewrite ?orb_true_r.
Qed.

Lemma edge_chunks_pairs {A} (lst : list A) : edge_chunks lst = Ok (adjacent_pairs lst).
Proof using Type.
  clear Hok. unfold edge_chunks, _chunks. simpl.
  rewrite range_step_one by lia. rewrite Nat.sub_0_r.
  fold (windows lst). by rewrite filter_windows.
Qed.

Lemma emit_edges_face_free lp : forall bm,
  faces bm = [] ->
  NoDup lp ->
  (forall i x y, lp !! i = Some x -> lp !! S i = Some y -> has_edge bm x y = false) ->
  emit_edges bm (adjacent_pairs lp) = Ok (add_edges bm (pairs_of lp)).
Proof.
  induction lp as [|x lp IH]; intros bm Hf Hnd Hfree.
  { destruct bm. unfold add_edges. simpl. by rewrite app_nil_r. }
  destruct lp as [|y lp].
  { destruct bm. unfold add_edges. simpl. by rewrite app_nil_r. }
  change (adjacent_pairs (x :: y :: lp)) with ([x; y] :: adjacent_pairs (y :: lp)).
  change (pairs_of (x :: y :: lp)) with ((x, y) :: pairs_of (y :: lp)).
  cbn [emit_edges connect_chunk]. rewrite (connect_no_faces h Hok) by done.
  apply NoDup_cons in Hnd as [Hx Hnd].
  unfold edges_new. rewrite (Hfree 0 x y) by done.
  rewrite (proj2 (Nat.eqb_neq x y)) by set_solver. cbn [orb mbind result_bind].
  rewrite IH; [|done|done|].
  - unfold add_edges. simpl. by rewrite <- app_assoc.
  - intros i p q Hp Hq.
    destruct (has_edge _ p q) eqn:He; [|done]. exfalso.
    apply has_edge_adjacent in He. unfold adjacent in He. simpl in He.
    assert (p ∈ y :: lp) by by eapply list_elem_of_lookup_2.
    assert (q ∈ y :: lp) by by eapply list_elem_of_lookup_2.
    assert (has_edge bm p q = false) as Hno by by apply (Hfree (S i)).
    apply not_true_iff_false in Hno. apply Hno, has_edge_adjacent.
    destruct He as [He|He]; apply elem_of_app in He as [He|He];
      [by left| |by right|];
      apply list_elem_of_singleton in He; simplify_eq; done.
Qed.

Lemma loop_builder_returns bm a :
  a ∈ selected_list bm ->
  exists st ex its, loop_builder bm a = Ok (st, ex, its) /\ NoDup (loop st).
Proof.
  intros Ha. destruct (list_remove_in a _ Ha) as [sel Hr].
  pose proof (list_remove_ok _ _ _ Hr) as (_ & Hsub & _).
  assert (loop_builder bm a =
          while_loop (S (length sel)) bm (kd_entries bm (selected_list bm)) (length sel)
            {| loop := [a]; selected_vertices := sel; current_vertex := Some a; _i := 0 |})
    as Hlb by (unfold loop_builder; by rewrite Hr).
  destruct (loop_builder bm a) as [[[st ex] its]|e|] eqn:Hrun.
  - exists st, ex, its. split; [done|]. symmetry in Hlb.
    refine (proj1 (while_loop_spec Hok _ _ _ _ (selected_list bm) _ _ _ _ _ _ Hlb));
      simpl; [apply NoDup_singleton|done].
  - exfalso. apply (loop_builder_raises Hok bm a); [|done]. rewrite Hrun. by exists e.
  - exfalso.
    pose proof (while_loop_bound (S (length sel)) bm (kd_entries bm (selected_list bm))
                  (length sel)
                  {| loop := [a]; selected_vertices := sel;
                     current_vertex := Some a; _i := 0 |}) as Hb.
    specialize (Hb ltac:(simpl; lia) ltac:(simpl; lia)).
    by rewrite <- Hlb in Hb.
Qed.

End FaceFree.

Lemma face_free_run (h : Host) (Hok : HostOk h)
  (bm : BMesh) (boundary_priority : bool) (a : nat) :
  let bm' := if boundary_priority then boundary_prune bm else bm in
  faces bm = [] ->
  active bm' = Some a ->
  a ∈ selected_list bm' ->
  exists st ex its,
    loop_builder bm' a = Ok (st, ex, its) /\
    connect_loop bm boundary_priority = Ok (add_edges bm' (pairs_of (loop st))).
Proof.
  intros bm' Hf Hact Ha.
  destruct (loop_builder_returns Hok bm' a Ha) as (st & ex & its & Hrun & Hnd).
  exists st, ex, its. split; [done|].
  unfold connect_loop. fold bm'. rewrite Hact, Hrun. cbn [mbind result_bind].
  rewrite edge_chunks_pairs. cbn [mbind result_bind].
  apply (emit_edges_face_free Hok); [|done|].
  - subst bm'. destruct boundary_priority; [|done].
    by destruct (boundary_prune_frame Hok bm) as (_ & -> & _).
  - intros i x y Hx Hy. apply not_true_iff_false. intros He%has_edge_adjacent.
    apply (loop_builder_hops Hok) in Hrun as [_ Hfree]. by apply (Hfree i x y).
Qed.

(** X14: on a mesh without faces, when the active vertex is selected
    after the pruning stage, the run returns: the loop is built, and the
    mesh written back is the pruned mesh with one new edge for each
    consecutive pair of the loop, in loop order, and nothing else changed. *)
Theorem X14_face_free_run (h : Host) (Hok : HostOk h)
  (bm : BMesh) (boundary_priority : bool) (a : nat) :
  let bm' := if boundary_priority then boundary_prune bm else bm in
  faces bm = [] ->
  active bm' = Some a ->
  a ∈ selected_list bm' ->
  exists st ex its,
    loop_builder bm' a = Ok (st, ex, its) /\
    connect_loop bm boundary_priority = Ok (add_edges bm' (pairs_of (loop st))).
Proof. apply (face_free_run h Hok). Qed.

Lemma X14_face_free_witness :
  exists st ex its,
    loop_builder (h:=first_host) fence 0 = Ok (st, ex, its) /\
    connect_loop (h:=first_host) fence false = Ok (add_edges fence (pairs_of (loop st))).
Proof.
  apply (X14_face_free_run first_host first_host_ok fence false 0).
  - reflexivity.
  - reflexivity.
  - vm_compute. apply list_elem_of_here.
Defined.

(** X15: the loop builder raises exactly when the seed is not among the
    selected vertices it is given, and then it is the ValueError of
    [selected_vertices.remove]; it never runs out of the [_l + 1] turns. *)
Theorem X15_loop_builder_outcome (h : Host) (Hok : HostOk h) bm a :
  (loop_builder bm a = Raise ValueError <-> a ∉ selected_list bm) /\
  (forall e, loop_builder bm a = Raise e -> e = ValueError) /\
  loop_builder bm a <> OutOfFuel.
Proof.
  destruct (decide (a ∈ selected_list bm)) as [Ha|Ha].
  - destruct (loop_builder_returns Hok bm a Ha) as (st & ex & its & -> & _).
    split_and!; [split; [done|done]|done|done].
  - unfold loop_builder. rewrite list_remove_not_in by done.
    split_and!; [done|by intros e [= <-]|done].
Qed.

Lemma X15_outcome_witness :
  (loop_builder (h:=first_host) (stub (Some 2)) 2 = Raise ValueError
   <-> 2 ∉ selected_list (stub (Some 2))) /\
  (forall e, loop_builder (h:=first_host) (stub (Some 2)) 2 = Raise e -> e = ValueError) /\
  loop_builder (h:=first_host) (stub (Some 2)) 2 <> OutOfFuel.
Proof. apply (X15_loop_builder_outcome first_host first_host_ok (stub (Some 2)) 2). Defined.

(** ** [_chunks] with any window and offset *)

Lemma range_step_lookup step fuel : forall i stop k,
  0 < step -> stop - i <= fuel ->
  range_step fuel i stop step !! k =
    if i + k * step <? stop then Some (i + k * step) else None.
Proof.
  induction fuel as [|fuel IH]; intros i stop k Hstep Hf; simpl.
  - destruct (Nat.ltb_spec (i + k * step) stop); [|done]. nia.
  - destruct (Nat.ltb_spec i stop) as [Hlt|Hge].
    + destruct k as [|k]; simpl.
      * rewrite Nat.add_0_r. by rewrite (proj2 (Nat.ltb_lt i stop)).
      * rewrite IH by lia. by replace (i + step + k * step) with (i + (step + k * step)) by lia.
    + destruct (Nat.ltb_spec (i + k * step) stop); [|done]. nia.
Qed.

Lemma chunks_concat {A} (lst : list A) n fuel : forall i,
  0 < n -> length lst - i <= fuel ->
  concat ((fun i => take n (drop i lst)) <$> range_step fuel i (length lst) n)
  = drop i lst.
Proof.
  induction fuel as [|fuel IH]; intros i Hn Hf; simpl.
  - rewrite drop_ge by lia. done.
  - destruct (Nat.ltb_spec i (length lst)) as [Hlt|Hge]; simpl.
    + rewrite IH by lia. rewrite <- (drop_drop lst n i). apply take_drop.
    + rewrite drop_ge by lia. done.
Qed.

Lemma chunks_slices {A} (lst : list A) (n offset : nat) :
  offset < n ->
  exists cs,
    _chunks lst n offset = Ok cs /\
    forall k, cs !! k =
       if k * (n - offset) <? length lst
       then Some (take n (drop (k * (n - offset)) lst)) else None.
Proof.
  intros Hn. unfold _chunks.
  rewrite (proj2 (Nat.eqb_neq n offset)), (proj2 (Nat.ltb_ge n offset)) by lia.
  eexists. split; [done|].
  intros k. rewrite list_lookup_fmap, range_step_lookup by lia. simpl.
  by destruct (k * (n - offset) <? length lst).
Qed.

(** X16: with a window [n] larger than the offset, [_chunks] returns the
    slices [lst[i:i + n]] for [i = 0, n - offset, 2 (n - offset), ...]
    below [len(lst)], and nothing else; every slice has between 1 and [n]
    elements. *)
Theorem X16_chunks_slices {A} (lst : list A) (n offset : nat) :
  offset < n ->
  exists cs,
    _chunks lst n offset = Ok cs /\
    (forall k, cs !! k =
       if k * (n - offset) <? length lst
       then Some (take n (drop (k * (n - offset)) lst)) else None) /\
    Forall (fun c => 0 < length c <= n) cs.
Proof.
  intros Hn. destruct (chunks_slices lst n offset Hn) as (cs & Hcs & Hlook).
  exists cs. split_and!; [done|done|].
  apply Forall_lookup. intros k c Hc. rewrite Hlook in Hc.
  destruct (Nat.ltb_spec (k * (n - offset)) (length lst)); [|done].
  simplify_eq. rewrite length_take, length_drop. lia.
Qed.

Lemma X16_chunks_witness :
  exists cs,
    _chunks [10; 20; 30; 40; 50] 3 1 = Ok cs /\
    (forall k, cs !! k =
       if k * (3 - 1) <? length [10; 20; 30; 40; 50]
       then Some (take 3 (drop (k * (3 - 1)) [10; 20; 30; 40; 50])) else None) /\
    Forall (fun c => 0 < length c <= 3) cs.
Proof. apply (X16_chunks_slices [10; 20; 30; 40; 50] 3 1). lia. Defined.

(** X17: without offset, [_chunks] cuts the list into pieces: joined
    together the chunks give the list back, and every chunk but the last
    has exactly [n] elements. *)
Theorem X17_chunks_partition {A} (lst : list A) (n : nat) :
  0 < n ->
  exists cs,
    _chunks lst n 0 = Ok cs /\
    concat cs = lst /\
    forall k c, cs !! k = Some c -> S k < length cs -> length c = n.
Proof.
  intros Hn. destruct (chunks_slices lst n 0 Hn) as (cs & Hcs & Hlook).
  exists cs. split; [done|]. split.
  - unfold _chunks in Hcs.
    rewrite (proj2 (Nat.eqb_neq n 0)), (proj2 (Nat.ltb_ge n 0)) in Hcs by lia.
    simplify_eq. rewrite Nat.sub_0_r. by rewrite chunks_concat by lia.
  - intros k c Hc Hk. rewrite Nat.sub_0_r in Hlook.
    apply lookup_lt_is_Some in Hk as [c' Hc']. rewrite Hlook in Hc, Hc'.
    destruct (Nat.ltb_spec (k * n) (length lst)); [|done].
    destruct (Nat.ltb_spec (S k * n) (length lst)); [|done].
    simplify_eq. rewrite length_take, length_drop. lia.
Qed.

Lemma X17_chunks_witness :
  exists cs,
    _chunks [10; 20; 30; 40; 50] 2 0 = Ok cs /\
    concat cs = [10; 20; 30; 40; 50] /\
    forall k c, cs !! k = Some c -> S k < length cs -> length c = 2.
Proof. apply (X17_chunks_partition [10; 20; 30; 40; 50] 2). lia. Defined.

(** X18: on a mesh without faces the only exception of [connect_loop] is
    the one of [selected_vertices.remove]: the operation raises exactly
    when there is an active vertex that is not selected once the pruning
    stage is over, and what it raises is ValueError. *)
Theorem X18_face_free_exceptions (h : Host) (Hok : HostOk h)
  (bm : BMesh) (boundary_priority : bool) :
  let bm' := if boundary_priority then boundary_prune bm else bm in
  faces bm = [] ->
  (connect_loop bm boundary_priority = Raise ValueError <->
   exists a, active bm' = Some a /\ a ∉ selected_list bm') /\
  (forall e, connect_loop bm boundary_priority = Raise e -> e = ValueError) /\
  connect_loop bm boundary_priority <> OutOfFuel.
Proof.
  intros bm' Hf.
  destruct (active bm') as [a|] eqn:Hact.
  - destruct (decide (a ∈ selected_list bm')) as [Ha|Ha].
    + destruct (face_free_run h Hok bm boundary_priority a Hf Hact Ha)
        as (st & ex & its & _ & ->).
      split_and!; [|done|done]. split; [done|]. by intros (a' & [= <-] & Hn).
    + assert (connect_loop bm boundary_priority = Raise ValueError) as ->.
      { unfold connect_loop. fold bm'. rewrite Hact.
        unfold loop_builder. by rewrite list_remove_not_in by done. }
      split_and!; [|by intros e [= <-]|done]. split; [eauto|done].
  - assert (connect_loop bm boundary_priority = Ok bm') as ->
      by (unfold connect_loop; fold bm'; by rewrite Hact).
    split_and!; [|done|done]. split; [done|]. by intros (a & ? & _).
Qed.

Lemma X18_exceptions_witness :
  (connect_loop (h:=first_host) (stub (Some 2)) false = Raise ValueError <->
   exists a, active (stub (Some 2)) = Some a /\ a ∉ selected_list (stub (Some 2))) /\
  (forall e, connect_loop (h:=first_host) (stub (Some 2)) false = Raise e -> e = ValueError) /\
  connect_loop (h:=first_host) (stub (Some 2)) false <> OutOfFuel.
Proof.
  apply (X18_face_free_exceptions first_host first_host_ok (stub (Some 2)) false).
  reflexivity.
Defined.

(** When flushing leaves only selected vertices in the selection history,
    a mesh without faces whose active vertex is selected is processed
    without an exception, also when pruning deselects the active vertex. *)
Lemma validated_history_returns (h : Host) (Hok : HostOk h)
  (bm : BMesh) (boundary_priority : bool) (a : nat) :
  (forall m v, active (select_flush_mode m) = Some v -> vert_select m v = true) ->
  faces bm = [] ->
  active bm = Some a ->
  vert_select bm a = true ->
  exists out, connect_loop bm boundary_priority = Ok out.
Proof.
  intros Hflush Hf Hact Ha.
  set (bm' := if boundary_priority then boundary_prune bm else bm).
  destruct (active bm') as [a'|] eqn:Hact'.
  - assert (a' ∈ selected_list bm') as Hin.
    { apply selected_list_elem. subst bm'. destruct boundary_priority.
      - unfold boundary_prune in *. apply Hflush in Hact'.
        unfold vert_select in *. by rewrite (flush_verts h Hok).
      - by simplify_eq. }
    destruct (face_free_run h Hok bm boundary_priority a' Hf Hact' Hin)
      as (st & ex & its & _ & ->). eauto.
  - exists bm'. unfold connect_loop. fold bm'. by rewrite Hact'.
Qed.

(** ** The loop builder: where the walk stops *)

Section Cover.
Context {h : Host} (Hok : HostOk h).

Lemma loop_body_cover bm c st st' it :
  small_selection bm ->
  loop st ⊆ selected_list bm ->
  cover_inv bm st ->
  c ∈ loop st ->
  loop_body bm (kd_entries bm (selected_list bm)) c st = Ok (st', it) ->
  cover_inv bm st' /\ loop st' ⊆ selected_list bm /\
  (it_found it = None ->
   forall v, v ∈ selected_list bm -> covered bm (loop st') v).
Proof.
  intros Hsmall Hloop Hcov Hc H. unfold loop_body in H.
  set (sel := set_iter _) in *.
  assert (forall v, v ∈ selected_list bm -> covered bm (loop st) v \/ v ∈ sel) as HB.
  { intros v Hv. destruct (Hcov v Hv) as [?|Hin]; [by left|].
    destruct (decide (v ∈ linked_verts bm c _linked_verts_recursive_deep)).
    - left. right. by exists c.
    - right. apply (set_iter_elem h Hok). set_solver. }
  destruct (kd_find _ _ _) as [[|n]|] eqn:Hfind; simpl in H.
  - simplify_eq/=. split_and!; [exact HB|done|done].
  - unfold verts_getitem in H. destruct (S n <? _); simpl in H; [|done].
    destruct (list_remove (S n) sel) as [sel'| |] eqn:Hr; simpl in H; [|done|done].
    simplify_eq/=.
    apply (kd_find_some h Hok) in Hfind as (_ & cv & Hin & _).
    apply list_elem_of_fmap in Hin as (v' & [= -> <-] & Hin).
    split_and!; [|set_solver|done].
    apply list_remove_ok in Hr as (_ & _ & _ & Hnd).
    destruct (Hnd (set_iter_nodup h Hok _)) as (_ & _ & Hrest).
    intros v Hv. unfold covered. simpl.
    destruct (HB v Hv) as [[Hin'|(x & Hx & Hl)]|Hin'].
    + left. left. set_solver.
    + left. right. exists x. split; [set_solver|done].
    + destruct (Hrest v Hin') as [->|?]; [left; left; set_solver|by right].
  - simplify_eq/=. split_and!; [exact HB|done|]. intros _ v Hv.
    destruct (HB v Hv) as [?|Hin]; [done|]. left.
    pose proof (kd_find_none h Hok _ _ _ Hfind
                  (proj1 (Forall_forall _ _) Hsmall c (Hloop c Hc))
                  (small_kd_entries bm Hsmall) (vert_co bm v) v) as Hflt.
    destruct (decide (v ∈ loop st)) as [?|Hnl]; [done|]. exfalso.
    unfold flt in Hflt.
    rewrite bool_decide_eq_false_2, bool_decide_eq_true_2 in Hflt by done.
    discriminate Hflt. apply list_elem_of_fmap. by exists v.
Qed.

Lemma while_loop_cover fuel : forall bm _l st st' ex its it,
  small_selection bm ->
  loop st ⊆ selected_list bm ->
  cover_inv bm st ->
  (forall c, current_vertex st = Some c -> c ∈ loop st) ->
  while_loop fuel bm (kd_entries bm (selected_list bm)) _l st = Ok (st', ex, its) ->
  last its = Some it -> it_found it = None ->
  forall v, v ∈ selected_list bm -> covered bm (loop st') v.
Proof.
  induction fuel as [|fuel IH];
    intros bm _l st st' ex its it Hsmall Hloop Hcov Htip H Hlast Hnone; simpl in H.
  - destruct (current_vertex st); by simplify_eq/=.
  - destruct (current_vertex st) as [c|] eqn:Hc; [|by simplify_eq/=].
    destruct (loop_body bm _ c st) as [[st1 it1]| |] eqn:Hb; simplify_eq/=.
    pose proof (loop_body_shape _ _ _ _ _ _ Hb) as (_ & Hcur & _ & Hnext).
    apply loop_body_cover in Hb as (Hcov1 & Hloop1 & Hdone1); [|done|done|done|by apply Htip].
    destruct (_l <? _i st1).
    + simplify_eq/=. by apply Hdone1.
    + destruct (while_loop fuel bm _ _l st1) as [[[st2 ex2] its2]| |] eqn:Hw; simplify_eq/=.
      destruct its2 as [|it2 its2].
      * simplify_eq/=.
        assert (st' = st1) as ->; [|by apply Hdone1].
        destruct fuel; simpl in Hw; destruct (current_vertex st1); simplify_eq/=; try done.
        destruct (loop_body _ _ _ _) as [[? ?]| |]; simplify_eq/=.
        destruct (_ <? _); simplify_eq/=.
        destruct (while_loop _ _ _ _ _) as [[[? ?] ?]| |]; simplify_eq/=.
      * rewrite last_cons_cons in Hlast.
        refine (IH _ _ _ _ _ _ it Hsmall Hloop1 Hcov1 _ Hw Hlast Hnone).
        intros c1 Hc1. rewrite Hcur in Hc1.
        destruct (it_next it1) as [v1|]; [|done].
        destruct Hnext as [_ ->]. simplify_eq. set_solver.
Qed.

End Cover.

(** X19: the walk goes on as long as [kd.find] has an answer.  When every
    selected vertex has [small] coordinates (integers of magnitude at most
    1024, on which the host's distances neither round nor overflow) and
    the last turn of a run got no answer, every selected vertex is a point
    of the loop or is linked to one. *)
Theorem X19_walk_stops_when_all_covered (h : Host) (Hok : HostOk h) bm a st ex its it :
  small_selection bm ->
  loop_builder bm a = Ok (st, ex, its) ->
  last its = Some it ->
  it_found it = None ->
  forall v, v ∈ selected_list bm -> covered bm (loop st) v.
Proof.
  unfold loop_builder. intros Hsmall H Hlast Hnone.
  destruct (list_remove a (selected_list bm)) as [sel| |] eqn:Hr; [|done|done].
  apply list_remove_ok in Hr as (Ha & _ & _ & Hnd).
  refine (while_loop_cover Hok _ _ _ _ _ _ _ _ Hsmall _ _ _ H Hlast Hnone); simpl.
  - set_solver.
  - intros v Hv. unfold covered. simpl.
    destruct (Hnd (NoDup_filter _ _ (NoDup_seq _ _))) as (_ & _ & Hrest).
    destruct (Hrest v Hv) as [->|?]; [left; left; set_solver|by right].
  - intros c [= <-]. set_solver.
Qed.

Lemma X19_walk_stops_witness :
  small_selection fence /\ covered (h:=first_host) fence (loop fence_final) 1.
Proof.
  assert (small_selection fence) as Hs.
  { repeat constructor; simpl; lia. }
  split; [exact Hs|].
  apply (X19_walk_stops_when_all_covered first_host first_host_ok fence 0 fence_final
           ExitDone fence_log
           {| it_loop := [0; 2]; it_candidates := []; it_found := None; it_next := None |}
           Hs fence_run).
  - reflexivity.
  - reflexivity.
  - vm_compute. apply list_elem_of_further, list_elem_of_here.
Defined.
